(** * The SQL statement compiler of immudb ([pkg/sql/stmt.go])

    A shallow embedding of the statement tree of [pkg/sql/stmt.go] and of
    the functions that compile it to key-value entries, followed by the
    properties of the compiler.

    Conventions of the embedding.
    - A Go function that returns [(x, err)] returns a [result]; a run-time
      panic (nil dereference, index out of range) is the third outcome
      [Panic].
    - Go maps are stdpp [gmap]s, [map[uint64]struct{}] is a [gset].
    - The engine is reached through a pointer that the code tests against
      [nil]; it is an [option Engine], and a function that mutates the
      pointee returns the new pointee next to its result.
    - Pointers that the code never compares with [nil] are plain values. *)

From Stdlib Require Import NArith Lia.
From Stdlib Require Import Strings.Byte.
From stdpp Require Import base option list strings gmap fin_maps.

Local Open Scope N_scope.
Local Open Scope string_scope.
Local Open Scope list_scope.

(** ** Results and errors *)

(** The sentinel errors of the package.  [ErrNew msg] is the value of
    [errors.New(msg)]. *)
Inductive error : Type :=
  | ErrIllegalArguments
  | ErrNoDatabaseSelected
  | ErrDatabaseDoesNotExist
  | ErrDatabaseAlreadyExists
  | ErrTableDoesNotExist
  | ErrTableAlreadyExists
  | ErrColumnDoesNotExist
  | ErrDuplicatedColumn
  | ErrInvalidColumn
  | ErrColumnNotIndexed
  | ErrIndexAlreadyExists
  | ErrPKCanNotBeNull
  | ErrInvalidPK
  | ErrInvalidNumberOfValues
  | ErrJointColumnNotFound
  | ErrInvalidJointColumn
  | ErrLimitedOrderBy
  | ErrInvalidValue
  | ErrNew (msg : string).

#[global] Instance error_eq_dec : EqDecision error.
Proof. solve_decision. Defined.

Inductive result (A : Type) : Type :=
  | Ok (a : A)
  | Err (e : error)
  | Panic.
Arguments Ok {A} a.
Arguments Err {A} e.
Arguments Panic {A}.

Definition is_Ok {A} (r : result A) : bool :=
  match r with Ok _ => true | _ => false end.


(** Sequencing of fallible steps: the first error or panic is returned.
    With these instances stdpp's [x ← r; k] is Go's
    [x, err := r; if err != nil { return err }; k]. *)
#[global] Instance result_ret : MRet result := fun A a => Ok a.

#[global] Instance result_bind : MBind result := fun A B k r =>
  match r with
  | Ok a => k a
  | Err e => Err e
  | Panic => Panic
  end.

(** ** Bytes and keys *)

(** [store.KV]; a [nil] slice is the empty list. *)
Record KV : Type := mkKV { Key : list byte; Value : list byte }.

Definition byte_of_N (n : N) : byte :=
  default x00 (Byte.of_N (n mod 256)).

(** The [k] low-order bytes of [n], most significant first. *)
Fixpoint be_bytes (k : nat) (n : N) : list byte :=
  match k with
  | O => []
  | S k' => byte_of_N (n / 256 ^ N.of_nat k') :: be_bytes k' n
  end.

Definition uint32 (n : N) : N := n mod 2 ^ 32.
Definition uint64 (n : N) : N := n mod 2 ^ 64.

(** [binary.BigEndian.PutUint32] *)
Definition PutUint32 (v : N) : list byte := be_bytes 4 (uint32 v).

(** [[]byte(s)] *)
Definition bytes_of (s : string) : list byte := String.list_byte_of_string s.

(** [len(s)] of a Go string, as a number. *)
Definition len (s : string) : N := N.of_nat (String.length s).

(** Modelled from the spec: [encodeID] is declared outside [stmt.go].
    "All ids are encoded as 8-byte big-endian unsigned integers". *)
Definition encodeID (id : N) : list byte := be_bytes 8 (uint64 id).

Definition catalogDatabasePrefix : string := "CATALOG.DATABASE.".
Definition catalogTablePrefix : string := "CATALOG.TABLE.".
Definition catalogColumnPrefix : string := "CATALOG.COLUMN.".
Definition catalogIndexPrefix : string := "CATALOG.INDEX.".
Definition rowPrefix : string := "ROW.".

Definition SQLValueType : Type := string.
Definition IntegerType : SQLValueType := "INTEGER".
Definition BooleanType : SQLValueType := "BOOLEAN".
Definition StringType : SQLValueType := "STRING".
Definition BLOBType : SQLValueType := "BLOB".
Definition TimestampType : SQLValueType := "TIMESTAMP".

(** Modelled from the spec: the constant [asKey] is declared outside
    [stmt.go]; "assume [asKey] is the boolean literal [true]". *)
Definition asKey : bool := true.

(** ** The catalog

    The catalog types are declared outside [stmt.go]; the records below
    hold the fields that [stmt.go] reads and writes.  The back references
    [Table.db] and [Column.table] point to objects whose id and name never
    change, so they are kept as the (id, name) of the parent. *)

Module DbRef.
Record t : Type := mk { id : N; name : string }.
#[global] Instance eq_dec : EqDecision t.
Proof. solve_decision. Defined.
End DbRef.

Module TableRefTo.
Record t : Type := mk { db : DbRef.t; id : N; name : string }.
#[global] Instance eq_dec : EqDecision t.
Proof. solve_decision. Defined.
End TableRefTo.

Module Column.
Record t : Type := mk {
  table : TableRefTo.t;
  id : N;
  colName : string;
  colType : SQLValueType
}.
#[global] Instance eq_dec : EqDecision t.
Proof. unfold SQLValueType. solve_decision. Defined.
End Column.

Module Table.
Record t : Type := mk {
  db : DbRef.t;
  id : N;
  name : string;
  colsByID : gmap N Column.t;
  colsByName : gmap string Column.t;
  pk : Column.t;
  indexes : gset N
}.

Definition with_indexes (ix : gset N) (tb : t) : t :=
  mk (db tb) (id tb) (name tb) (colsByID tb) (colsByName tb) (pk tb) ix.
End Table.

Module Database.
Record t : Type := mk {
  id : N;
  name : string;
  tablesByName : gmap string Table.t
}.

Definition with_tables (ts : gmap string Table.t) (d : t) : t :=
  mk (id d) (name d) ts.
End Database.

Module Catalog.
Record t : Type := mk { dbsByName : gmap string Database.t }.

(** Modelled from the spec: [ExistDatabase] is declared outside
    [stmt.go]; "[exists(name) -> bool]". *)
Definition ExistDatabase (c : t) (db : string) : bool :=
  bool_decide (is_Some (dbsByName c !! db)).

(** Modelled from the spec: [newDatabase] is declared outside [stmt.go].
    "[new_database(name) -> Database] fails with DatabaseAlreadyExists";
    "Ids are monotonically assigned from 1 within their enclosing scope
    and never reused" (databases are never dropped, so the next id is the
    number of databases plus one). *)
Definition newDatabase (c : t) (db : string) : result (t * Database.t) :=
  match dbsByName c !! db with
  | Some _ => Err ErrDatabaseAlreadyExists
  | None =>
      let d := Database.mk (N.of_nat (size (dbsByName c)) + 1) db ∅ in
      Ok (mk (<[db := d]> (dbsByName c)), d)
  end.
End Catalog.

(** [Engine]: its key prefix, its catalog and the implicit database. *)
Record Engine : Type := mkEngine {
  prefix : list byte;
  catalog : Catalog.t;
  implicitDatabase : string
}.

Definition set_catalog (c : Catalog.t) (e : Engine) : Engine :=
  mkEngine (prefix e) c (implicitDatabase e).

Definition set_implicitDatabase (db : string) (e : Engine) : Engine :=
  mkEngine (prefix e) (catalog e) db.

(** Modelled from the spec: [Engine.mapKey] is declared outside [stmt.go].
    The keys of section 4.1 are the mapping prefix followed by the encoded
    components, and "the implementation MAY prepend a fixed per-engine
    prefix to all keys". *)
Definition mapKey (e : Engine) (mappingPrefix : string)
    (encValues : list (list byte)) : list byte :=
  prefix e ++ bytes_of mappingPrefix ++ concat encValues.

Module ColSpec.
Record t : Type := mk { colName : string; colType : SQLValueType }.
End ColSpec.

(** Modelled from the spec: [Database.newTable] is declared outside
    [stmt.go].  "[Database.new_table(name, cols, pk) -> Table] fails with
    TableAlreadyExists, DuplicatedColumn, InvalidPK (pk not in cols)";
    CREATE TABLE "allocates table id, per-column ids"; "Ids are
    monotonically assigned from 1 within their enclosing scope".  The new
    table has no secondary index and is registered in the database. *)
Fixpoint newColumns (tref : TableRefTo.t) (colsSpec : list ColSpec.t)
    (byID : gmap N Column.t) (byName : gmap string Column.t)
    : result (gmap N Column.t * gmap string Column.t) :=
  match colsSpec with
  | [] => Ok (byID, byName)
  | cs :: rest =>
      match byName !! ColSpec.colName cs with
      | Some _ => Err ErrDuplicatedColumn
      | None =>
          let col := Column.mk tref (N.of_nat (size byID) + 1)
                       (ColSpec.colName cs) (ColSpec.colType cs) in
          newColumns tref rest (<[Column.id col := col]> byID)
            (<[Column.colName col := col]> byName)
      end
  end.

Definition newTable (d : Database.t) (name : string)
    (colsSpec : list ColSpec.t) (pk : string)
    : result (Database.t * Table.t) :=
  match Database.tablesByName d !! name with
  | Some _ => Err ErrTableAlreadyExists
  | None =>
      let dref := DbRef.mk (Database.id d) (Database.name d) in
      let id := N.of_nat (size (Database.tablesByName d)) + 1 in
      '(byID, byName) ← newColumns (TableRefTo.mk dref id name) colsSpec ∅ ∅;
      match byName !! pk with
      | None => Err ErrInvalidPK
      | Some pkCol =>
          let table := Table.mk dref id name byID byName pkCol ∅ in
          Ok (Database.with_tables
                (<[name := table]> (Database.tablesByName d)) d, table)
      end
  end.

(** ** The statement tree *)

Module CmpOperator.
Inductive t : Type := EQ | NE | LT | LE | GT | GE.
#[global] Instance eq_dec : EqDecision t.
Proof. solve_decision. Defined.
End CmpOperator.

Module LogicOperator.
Inductive t : Type := AND | OR.
End LogicOperator.

Module JoinType.
Inductive t : Type := InnerJoin | LeftJoin | RightJoin.
End JoinType.

Module AggregateFn.
Inductive t : Type := COUNT | SUM | MAX | MIN | AVG.
End AggregateFn.

Inductive Comparison : Type :=
  | EqualTo
  | LowerThan
  | LowerOrEqualTo
  | GreaterThan
  | GreaterOrEqualTo.

#[global] Instance Comparison_eq_dec : EqDecision Comparison.
Proof. solve_decision. Defined.

(** The implementations of the [Value] interface. *)
Module Value.
Inductive t : Type :=
  | Number (val : N)
  | String (val : string)
  | Bool (val : bool)
  | Blob (val : list byte)
  | SysFn (fn : string)
  | Param (id : string).
End Value.

Module RowSpec.
Record t : Type := mk { Values : list Value.t }.
End RowSpec.

Module ColSelector.
Record t : Type := mk {
  db : string;
  table : string;
  col : string;
  as_ : string
}.
End ColSelector.

(** A [*ColSelector] whose identity matters: [BinBoolExp.jointColumnTo]
    compares two such pointers.  [addr] is the address, [deref] the
    pointee. *)
Module ColSelectorPtr.
Record t : Type := mk { addr : N; deref : ColSelector.t }.

(** [p == q] on pointers *)
Definition eqb (p q : t) : bool := bool_decide (addr p = addr q).
End ColSelectorPtr.

Module AggSelector.
Record t : Type := mk { aggFn : AggregateFn.t; as_ : string }.
End AggSelector.

Module AggColSelector.
Record t : Type := mk {
  aggFn : AggregateFn.t;
  db : string;
  table : string;
  col : string;
  as_ : string
}.
End AggColSelector.

(** [Selector] is the empty interface; these are the selector types of the
    package. *)
Inductive Selector : Type :=
  | SelCol (s : ColSelector.t)
  | SelAgg (s : AggSelector.t)
  | SelAggCol (s : AggColSelector.t).

Module OrdCol.
Record t : Type := mk {
  sel : option ColSelector.t;   (* [*ColSelector], [None] is [nil] *)
  cmp : Comparison;
  initKeyVal : list byte;
  useInitKeyVal : bool
}.
End OrdCol.

Module TableRef.
Record t : Type := mk { db : string; table : string; as_ : string }.
End TableRef.

(** Expressions, SELECT statements, data sources and joins refer to one
    another.  Every type with a [jointColumnTo] method is a [BoolExp], the
    values included.  A [nil] slice or interface that the code tests for is
    [None]. *)
Inductive BoolExp : Type :=
  | ValueExp (v : Value.t)
  | ColSelectorExp (sel : ColSelectorPtr.t)
  | NotBoolExp (exp : BoolExp)
  | LikeBoolExp (col : ColSelector.t) (pattern : string)
  | CmpBoolExp (op : CmpOperator.t) (left right : BoolExp)
  | BinBoolExp (op : LogicOperator.t) (left right : BoolExp)
  | ExistsBoolExp (q : SelectStmt)
with SelectStmt : Type :=
  | mkSelectStmt (distinct : bool) (selectors : list Selector)
      (ds : DataSource) (joins : option (list JoinSpec))
      (where_ : option BoolExp) (groupBy : option (list ColSelector.t))
      (having : option BoolExp) (limit : N) (orderBy : list OrdCol.t)
      (as_ : string)
with DataSource : Type :=
  | DSTableRef (t : TableRef.t)
  | DSSelectStmt (s : SelectStmt)
with JoinSpec : Type :=
  | mkJoinSpec (joinType : JoinType.t) (ds : DataSource) (cond : BoolExp).

Definition SelectStmt_ds (s : SelectStmt) : DataSource :=
  let 'mkSelectStmt _ _ ds _ _ _ _ _ _ _ := s in ds.
Definition SelectStmt_joins (s : SelectStmt) : option (list JoinSpec) :=
  let 'mkSelectStmt _ _ _ joins _ _ _ _ _ _ := s in joins.
Definition SelectStmt_orderBy (s : SelectStmt) : list OrdCol.t :=
  let 'mkSelectStmt _ _ _ _ _ _ _ _ orderBy _ := s in orderBy.

(** The implementations of the [SQLStmt] interface. *)
#[warnings="-register-all"]
Inductive SQLStmt : Type :=
  | TxStmt (stmts : list SQLStmt)
  | CreateDatabaseStmt (db : string)
  | UseDatabaseStmt (db : string)
  | UseSnapshotStmt (since upTo : string)
  | CreateTableStmt (table : string) (colsSpec : list ColSpec.t) (pk : string)
  | CreateIndexStmt (table col : string)
  | AddColumnStmt (table : string) (colSpec : ColSpec.t)
  | UpsertIntoStmt (tableRef : TableRef.t) (cols : list string)
      (rows : list RowSpec.t)
  | SelectSQLStmt (s : SelectStmt).

(** ** The compiler and the resolver *)

Section Compiler.

(** What the package takes from elsewhere.  [encodeValue] and [maxKeyVal]
    belong to the key codec, [newRawRowReader] and [newJointRowReader] to
    the row readers, [Snapshot] to the store: none is declared in
    [stmt.go], and the functions below are parametric in them. *)
Variable Snapshot : Type.
Variable RowReader : Type.
Variable encodeValue : Value.t -> SQLValueType -> bool -> result (list byte).
Variable maxKeyVal : SQLValueType -> list byte.
Variable newRawRowReader :
  Engine -> Snapshot -> Table.t -> string -> Comparison -> list byte ->
  result RowReader.
Variable newJointRowReader :
  option Engine -> option Snapshot -> RowReader -> list JoinSpec ->
  result RowReader.

(** Go leaves the order of a [range] over a map unspecified, and two
    executions of one loop over one map may differ.  The order is a
    parameter: [mapRange m] lists the entries of [m] in the order the loop
    visits them, and [setRange n s] the keys of a [map[uint64]struct{}] in
    the order in which the loop of the [n]-th row of an UPSERT visits
    them, so that every row may see [table.indexes] in an order of its
    own. *)
Variable mapRange : gmap N Column.t -> list (N * Column.t).
Variable setRange : nat -> gset N -> list N.
Hypothesis mapRange_perm : forall m, mapRange m ≡ₚ map_to_list m.
Hypothesis setRange_perm : forall n s, setRange n s ≡ₚ elements s.

(** [s[i]] on a slice: out of range is a run-time panic. *)
Definition index {A} (s : list A) (i : nat) : result A :=
  match s !! i with
  | Some x => Ok x
  | None => Panic
  end.

(** *** [TableRef.referencedTable] *)

Definition referencedTable (stmt : TableRef.t) (e : option Engine)
    : result Table.t :=
  match e with
  | None => Err ErrIllegalArguments
  | Some e =>
      let db := "" in
      db ← (if bool_decide (db ≠ "") then
              let exists_ := Catalog.ExistDatabase (catalog e) (TableRef.db stmt) in
              if negb exists_ then Err ErrDatabaseDoesNotExist
              else Ok (TableRef.db stmt)
            else Ok db);
      db ← (if bool_decide (db = "") then
              if bool_decide (implicitDatabase e = "")
              then Err ErrNoDatabaseSelected
              else Ok (implicitDatabase e)
            else Ok db);
      match Catalog.dbsByName (catalog e) !! db with
      | None => Panic
      | Some d =>
          match Database.tablesByName d !! TableRef.table stmt with
          | None => Err ErrTableDoesNotExist
          | Some table => Ok table
          end
      end
  end.

(** *** DDL statements *)

Definition KVs : Type := list KV * list KV.

Definition CreateDatabaseStmt_CompileUsing (db : string) (e : option Engine)
    : option Engine * result KVs :=
  match e with
  | None => (None, Panic)
  | Some e =>
      match Catalog.newDatabase (catalog e) db with
      | Ok (c, d) =>
          let e := set_catalog c e in
          let kv := mkKV (mapKey e catalogDatabasePrefix [encodeID (Database.id d)])
                         (bytes_of db) in
          (Some e, Ok ([] ++ [kv], []))
      | Err err => (Some e, Err err)
      | Panic => (Some e, Panic)
      end
  end.

Definition UseDatabaseStmt_CompileUsing (db : string) (e : option Engine)
    : option Engine * result KVs :=
  match e with
  | None => (None, Panic)
  | Some e =>
      let exists_ := Catalog.ExistDatabase (catalog e) db in
      if negb exists_ then (Some e, Err ErrDatabaseDoesNotExist)
      else (Some (set_implicitDatabase db e), Ok ([], []))
  end.

Definition UseSnapshotStmt_CompileUsing (e : option Engine)
    : option Engine * result KVs :=
  (e, Err (ErrNew "not yet supported")).

Definition AddColumnStmt_CompileUsing (e : option Engine)
    : option Engine * result KVs :=
  (e, Err (ErrNew "not yet supported")).

(** The table entry comes after one entry per column of [table.colsByID];
    the value of a column entry is [nil]. *)
Definition CreateTableStmt_CompileUsing (table : string)
    (colsSpec : list ColSpec.t) (pk : string) (e : option Engine)
    : option Engine * result KVs :=
  match e with
  | None => (None, Panic)
  | Some e =>
      if bool_decide (implicitDatabase e = "")
      then (Some e, Err ErrNoDatabaseSelected)
      else
        match Catalog.dbsByName (catalog e) !! implicitDatabase e with
        | None => (Some e, Panic)
        | Some db =>
            match newTable db table colsSpec pk with
            | Err err => (Some e, Err err)
            | Panic => (Some e, Panic)
            | Ok (db', table) =>
                let e := set_catalog
                  (Catalog.mk (<[implicitDatabase e := db']>
                                 (Catalog.dbsByName (catalog e)))) e in
                let ces :=
                  map (fun '(colID, col) =>
                         mkKV (mapKey e catalogColumnPrefix
                                 [encodeID (Database.id db); encodeID (Table.id table);
                                  encodeID colID; bytes_of (Column.colType col)])
                              [])
                      (mapRange (Table.colsByID table)) in
                let te :=
                  mkKV (mapKey e catalogTablePrefix
                          [encodeID (Database.id db); encodeID (Table.id table);
                           encodeID (Column.id (Table.pk table))])
                       (bytes_of (Table.name table)) in
                (Some e, Ok (ces ++ [te], []))
            end
        end
  end.

(** [table.indexes[col.id] = struct{}{}] writes to the table that the
    catalog holds: the new engine has the table updated in place. *)
Definition CreateIndexStmt_CompileUsing (table col : string) (e : option Engine)
    : option Engine * result KVs :=
  match e with
  | None => (None, Panic)
  | Some e =>
      if bool_decide (implicitDatabase e = "")
      then (Some e, Err ErrNoDatabaseSelected)
      else
        match Catalog.dbsByName (catalog e) !! implicitDatabase e with
        | None => (Some e, Panic)
        | Some d =>
            match Database.tablesByName d !! table with
            | None => (Some e, Err ErrTableDoesNotExist)
            | Some tb =>
                if bool_decide (Column.colName (Table.pk tb) = col)
                then (Some e, Err ErrIndexAlreadyExists)
                else
                  match Table.colsByName tb !! col with
                  | None => (Some e, Err ErrColumnDoesNotExist)
                  | Some c =>
                      if bool_decide (Column.id c ∈ Table.indexes tb)
                      then (Some e, Err ErrIndexAlreadyExists)
                      else
                        let tb' := Table.with_indexes
                                     ({[Column.id c]} ∪ Table.indexes tb) tb in
                        let d' := Database.with_tables
                                    (<[table := tb']> (Database.tablesByName d)) d in
                        let e := set_catalog
                          (Catalog.mk (<[implicitDatabase e := d']>
                                         (Catalog.dbsByName (catalog e)))) e in
                        let te :=
                          mkKV (mapKey e catalogIndexPrefix
                                  [encodeID (DbRef.id (Table.db tb'));
                                   encodeID (Table.id tb'); encodeID (Column.id c)])
                               (bytes_of (Table.name tb')) in
                        (Some e, Ok ([] ++ [te], []))
                  end
            end
        end
  end.

(** *** UPSERT *)

(** [RowSpec.Bytes]: the number of listed columns, then for every value
    the name of its column and the value, each name after its length.
    Writes to a [bytes.Buffer] never fail. *)
Fixpoint Bytes_loop (t : Table.t) (cols : list string) (i : nat)
    (vals : list Value.t) (valbuf : list byte) : result (list byte) :=
  match vals with
  | [] => Ok valbuf
  | val :: rest =>
      c ← index cols i;
      match Table.colsByName t !! c with
      | None => Panic
      | Some col =>
          let b := PutUint32 (len (Column.colName col))
                   ++ bytes_of (Column.colName col) in
          let valbuf := valbuf ++ b in
          valb ← encodeValue val (Column.colType col) (negb asKey);
          Bytes_loop t cols (S i) rest (valbuf ++ valb)
      end
  end.

Definition Bytes (r : RowSpec.t) (t : Table.t) (cols : list string)
    : result (list byte) :=
  Bytes_loop t cols 0%nat (RowSpec.Values r)
    (PutUint32 (N.of_nat (length cols))).

(** [UpsertIntoStmt.Validate]: the loop over the listed columns, from
    position [i], with the flag and the map built so far. *)
Fixpoint Validate_loop (table : Table.t) (cols : list string) (i : nat)
    (pkIncluded : bool) (selByColID : gmap N nat)
    : result (bool * gmap N nat) :=
  match cols with
  | [] => Ok (pkIncluded, selByColID)
  | c :: rest =>
      match Table.colsByName table !! c with
      | None => Err ErrInvalidColumn
      | Some col =>
          let pkIncluded :=
            if bool_decide (Column.colName (Table.pk table) = c)
            then true else pkIncluded in
          match selByColID !! Column.id col with
          | Some _ => Err ErrDuplicatedColumn
          | None =>
              Validate_loop table rest (S i) pkIncluded
                (<[Column.id col := i]> selByColID)
          end
      end
  end.

Definition Validate (cols : list string) (table : Table.t)
    : result (gmap N nat) :=
  '(pkIncluded, selByColID) ← Validate_loop table cols 0%nat false ∅;
  if negb pkIncluded then Err ErrPKCanNotBeNull else Ok selByColID.

(** [cs[k]] on a Go map: a missing key reads as the zero value. *)
Definition sel_at (cs : gmap N nat) (k : N) : nat := default 0%nat (cs !! k).

(** The entries of the indexed columns of one row, in the order of the
    range over [table.indexes]. *)
Fixpoint indexEntries (e : Engine) (table : Table.t) (cs : gmap N nat)
    (row : RowSpec.t) (pkEncVal : list byte) (colIDs : list N)
    (des : list KV) : result (list KV) :=
  match colIDs with
  | [] => Ok des
  | colID :: rest =>
      cVal ← index (RowSpec.Values row) (sel_at cs colID);
      match Table.colsByID table !! colID with
      | None => Panic
      | Some col =>
          encVal ← encodeValue cVal (Column.colType col) asKey;
          let ie :=
            mkKV (mapKey e rowPrefix
                    [encodeID (DbRef.id (Table.db table)); encodeID (Table.id table);
                     encodeID colID; encVal; pkEncVal])
                 [] in
          indexEntries e table cs row pkEncVal rest (des ++ [ie])
      end
  end.

(** The loop over the rows.  [n] is the number of the row, counted from
    0: it tells the executions of the loop over [table.indexes] apart and
    plays no other part. *)
Fixpoint Upsert_rows (e : Engine) (table : Table.t) (cols : list string)
    (cs : gmap N nat) (n : nat) (rows : list RowSpec.t) (des : list KV)
    : result (list KV) :=
  match rows with
  | [] => Ok des
  | row :: rest =>
      if bool_decide (length (RowSpec.Values row) ≠ length cols)
      then Err ErrInvalidNumberOfValues
      else
        pkVal ← index (RowSpec.Values row)
                  (sel_at cs (Column.id (Table.pk table)));
        pkEncVal ← encodeValue pkVal (Column.colType (Table.pk table)) asKey;
        bs ← Bytes row table cols;
        let pke :=
          mkKV (mapKey e rowPrefix
                  [encodeID (DbRef.id (Table.db table)); encodeID (Table.id table);
                   encodeID (Column.id (Table.pk table)); pkEncVal])
               bs in
        des ← indexEntries e table cs row pkEncVal
                (setRange n (Table.indexes table)) (des ++ [pke]);
        Upsert_rows e table cols cs (S n) rest des
  end.

(** The engine is not [nil] once [referencedTable] has returned a table. *)
Definition UpsertIntoStmt_CompileUsing (tableRef : TableRef.t)
    (cols : list string) (rows : list RowSpec.t) (e : option Engine)
    : result KVs :=
  table ← referencedTable tableRef e;
  cs ← Validate cols table;
  match e with
  | None => Panic
  | Some eng =>
      des ← Upsert_rows eng table cols cs 0%nat rows [];
      Ok ([], des)
  end.

(** *** SELECT *)

Definition SelectStmt_CompileUsing (stmt : SelectStmt) (e : option Engine)
    : result KVs :=
  let orderBy := SelectStmt_orderBy stmt in
  if bool_decide (1 < length orderBy)%nat then Err ErrLimitedOrderBy
  else if bool_decide (0 < length orderBy)%nat then
    match SelectStmt_ds stmt with
    | DSTableRef tableRef =>
        table ← referencedTable tableRef e;
        ord0 ← index orderBy 0%nat;
        match OrdCol.sel ord0 with
        | None => Panic
        | Some sel =>
            match Table.colsByName table !! ColSelector.col sel with
            | None => Err ErrLimitedOrderBy
            | Some col =>
                if bool_decide (Column.id (Table.pk table) = Column.id col)
                then Ok ([], [])
                else
                  let indexed := bool_decide (Column.id col ∈ Table.indexes table) in
                  if negb indexed then Err ErrLimitedOrderBy
                  else Ok ([], [])
            end
        end
    | DSSelectStmt _ => Err ErrLimitedOrderBy
    end
  else Ok ([], []).

(** *** [SQLStmt.CompileUsing]

    The statements of a [TxStmt] are compiled in order on the same engine.
    [ces] grows with the catalog entries of every child; the statement
    [ds = append(ds, ds...)] assigns to the child's own [ds], and [des] is
    returned as it was declared. *)
Fixpoint CompileUsing (stmt : SQLStmt) (e : option Engine)
    : option Engine * result KVs :=
  match stmt with
  | TxStmt stmts =>
      (fix loop (stmts : list SQLStmt) (e : option Engine)
           (ces des : list KV) : option Engine * result KVs :=
         match stmts with
         | [] => (e, Ok (ces, des))
         | stmt :: rest =>
             match CompileUsing stmt e with
             | (e, Err err) => (e, Err err)
             | (e, Panic) => (e, Panic)
             | (e, Ok (cs, ds)) =>
                 let ces := ces ++ cs in
                 let ds := ds ++ ds in
                 loop rest e ces des
             end
         end) stmts e [] []
  | CreateDatabaseStmt db => CreateDatabaseStmt_CompileUsing db e
  | UseDatabaseStmt db => UseDatabaseStmt_CompileUsing db e
  | UseSnapshotStmt _ _ => UseSnapshotStmt_CompileUsing e
  | CreateTableStmt table colsSpec pk =>
      CreateTableStmt_CompileUsing table colsSpec pk e
  | CreateIndexStmt table col => CreateIndexStmt_CompileUsing table col e
  | AddColumnStmt _ _ => AddColumnStmt_CompileUsing e
  | UpsertIntoStmt tableRef cols rows =>
      (e, UpsertIntoStmt_CompileUsing tableRef cols rows e)
  | SelectSQLStmt s => (e, SelectStmt_CompileUsing s e)
  end.

(** The loop of [TxStmt.CompileUsing] on its own, for the proofs. *)
Fixpoint Tx_loop (stmts : list SQLStmt) (e : option Engine)
    (ces des : list KV) : option Engine * result KVs :=
  match stmts with
  | [] => (e, Ok (ces, des))
  | stmt :: rest =>
      match CompileUsing stmt e with
      | (e, Err err) => (e, Err err)
      | (e, Panic) => (e, Panic)
      | (e, Ok (cs, ds)) =>
          let ces := ces ++ cs in
          let ds := ds ++ ds in
          Tx_loop rest e ces des
      end
  end.

(** What the statements of a transaction return, each compiled on the
    engine that the statements before it have left, up to the first one
    that fails. *)
Fixpoint Tx_outputs (stmts : list SQLStmt) (e : option Engine) : list KVs :=
  match stmts with
  | [] => []
  | stmt :: rest =>
      match CompileUsing stmt e with
      | (e, Ok out) => out :: Tx_outputs rest e
      | _ => []
      end
  end.

(** The shape of the entries of one row of an UPSERT.

    The payload of a row: the number of listed columns on four bytes,
    then, for each listed column in order, the length of the name of the
    column on four bytes, the name, and the value of the row at that
    position encoded as a payload. *)
Definition row_payload (table : Table.t) (cols : list string)
    (row : RowSpec.t) (bs : list byte) : Prop :=
  exists chunks,
    bs = PutUint32 (N.of_nat (length cols)) ++ concat chunks
    /\ length chunks = length cols
    /\ forall k c, cols !! k = Some c ->
         exists col val valb,
           Table.colsByName table !! c = Some col
           /\ RowSpec.Values row !! k = Some val
           /\ encodeValue val (Column.colType col) false = Ok valb
           /\ chunks !! k
              = Some (PutUint32 (len (Column.colName col))
                      ++ bytes_of (Column.colName col) ++ valb).

(** The entry of an indexed column [colID]: an empty value under the key
    of the row prefix, the ids of database, table and column, the value
    of the row at the position [pos colID] encoded as a key, and the
    encoded primary key at the end. *)
Definition secondary_entry (e : Engine) (table : Table.t) (row : RowSpec.t)
    (pos : N -> nat) (pkEncVal : list byte) (colID : N) (ie : KV) : Prop :=
  Value ie = []
  /\ (exists cVal col encVal,
        RowSpec.Values row !! pos colID = Some cVal
        /\ Table.colsByID table !! colID = Some col
        /\ encodeValue cVal (Column.colType col) asKey = Ok encVal
        /\ Key ie = mapKey e rowPrefix
                      [encodeID (DbRef.id (Table.db table));
                       encodeID (Table.id table); encodeID colID;
                       encVal; pkEncVal])
  /\ (exists pre, Key ie = pre ++ pkEncVal).

(** The entries of the [n]-th row: the entry of the primary key, whose
    key ends with the value of the row at the position [pos] of the
    primary key, encoded as a key, and whose value is the payload of the
    row; then one entry per indexed column, in the order in which the loop
    of that row visits [table.indexes]. *)
Definition row_entries (e : Engine) (table : Table.t) (cols : list string)
    (pos : N -> nat) (n : nat) (row : RowSpec.t) (block : list KV) : Prop :=
  exists pkVal pkEncVal bs secs,
    length (RowSpec.Values row) = length cols
    /\ RowSpec.Values row !! pos (Column.id (Table.pk table)) = Some pkVal
    /\ encodeValue pkVal (Column.colType (Table.pk table)) asKey = Ok pkEncVal
    /\ row_payload table cols row bs
    /\ block =
       mkKV (mapKey e rowPrefix
               [encodeID (DbRef.id (Table.db table)); encodeID (Table.id table);
                encodeID (Column.id (Table.pk table)); pkEncVal]) bs :: secs
    /\ (exists pre, mapKey e rowPrefix
               [encodeID (DbRef.id (Table.db table)); encodeID (Table.id table);
                encodeID (Column.id (Table.pk table)); pkEncVal]
                    = pre ++ pkEncVal)
    /\ length secs = size (Table.indexes table)
    /\ Forall2 (secondary_entry e table row pos pkEncVal)
         (setRange n (Table.indexes table)) secs.

(** *** [jointColumnTo]

    The method returns a pointer and an error; either may be [nil]. *)
Definition jret : Type := option ColSelectorPtr.t * option error.

(** [p != q] on two [*ColSelector] *)
Definition ptr_neqb (p q : option ColSelectorPtr.t) : bool :=
  match p, q with
  | None, None => false
  | Some a, Some b => negb (ColSelectorPtr.eqb a b)
  | _, _ => true
  end.

Definition ColSelector_jointColumnTo (bexp : ColSelectorPtr.t) (col : Column.t)
    : jret :=
  let sel := ColSelectorPtr.deref bexp in
  if bool_decide (ColSelector.db sel ≠ "")
     && bool_decide (ColSelector.db sel
                     ≠ DbRef.name (TableRefTo.db (Column.table col)))
  then (None, Some ErrJointColumnNotFound)
  else if bool_decide (ColSelector.table sel ≠ "")
          && bool_decide (ColSelector.table sel
                          ≠ TableRefTo.name (Column.table col))
  then (None, Some ErrJointColumnNotFound)
  else if bool_decide (ColSelector.col sel ≠ Column.colName col)
  then (None, Some ErrJointColumnNotFound)
  else (Some bexp, None).

(** The type assertion of a [BoolExp] to a pointer to [ColSelector] *)
Definition as_ColSelector (x : BoolExp) : option ColSelectorPtr.t :=
  match x with
  | ColSelectorExp p => Some p
  | _ => None
  end.

Definition CmpBoolExp_jointColumnTo (op : CmpOperator.t) (left right : BoolExp)
    (col : Column.t) : jret :=
  if bool_decide (op ≠ CmpOperator.EQ) then (None, Some ErrJointColumnNotFound)
  else
    match as_ColSelector left, as_ColSelector right with
    | Some selLeft, Some selRight =>
        let errLeft := snd (ColSelector_jointColumnTo selLeft col) in
        let errRight := snd (ColSelector_jointColumnTo selRight col) in
        if bool_decide (errLeft ≠ None)
           && bool_decide (errLeft ≠ Some ErrJointColumnNotFound)
        then (None, errLeft)
        else if bool_decide (errRight ≠ None)
                && bool_decide (errRight ≠ Some ErrJointColumnNotFound)
        then (None, errRight)
        else if bool_decide (errLeft = None) && bool_decide (errRight = None)
        then (None, Some ErrInvalidJointColumn)
        else if bool_decide (errLeft = None) then (Some selRight, None)
        else (Some selLeft, None)
    | _, _ => (None, Some ErrJointColumnNotFound)
    end.

(** In the [BinBoolExp] case both [jcolLeft] and [jcolRight] come from
    [bexp.left] ([left_] below; [left] and [right] are taken in
    patterns). *)
Fixpoint jointColumnTo (bexp : BoolExp) (col : Column.t) : jret :=
  match bexp with
  | ValueExp _ => (None, Some ErrJointColumnNotFound)
  | ColSelectorExp sel => ColSelector_jointColumnTo sel col
  | NotBoolExp exp => jointColumnTo exp col
  | LikeBoolExp _ _ => (None, Some ErrJointColumnNotFound)
  | CmpBoolExp op left_ right_ =>
      CmpBoolExp_jointColumnTo op left_ right_ col
  | BinBoolExp _ left_ right_ =>
      let '(jcolLeft, errLeft) := jointColumnTo left_ col in
      let '(jcolRight, errRight) := jointColumnTo left_ col in
      if bool_decide (errLeft ≠ None)
         && bool_decide (errLeft ≠ Some ErrJointColumnNotFound)
      then (None, errLeft)
      else if bool_decide (errRight ≠ None)
              && bool_decide (errRight ≠ Some ErrJointColumnNotFound)
      then (None, errRight)
      else if bool_decide (errLeft = Some ErrJointColumnNotFound)
              && bool_decide (errRight = Some ErrJointColumnNotFound)
      then (None, Some ErrJointColumnNotFound)
      else if bool_decide (errLeft = None) && bool_decide (errRight = None)
              && ptr_neqb jcolLeft jcolRight
      then (None, Some ErrInvalidJointColumn)
      else if bool_decide (errLeft = None) then (jcolLeft, None)
      else (jcolRight, None)
  | ExistsBoolExp _ => (None, Some ErrJointColumnNotFound)
  end.

(** *** [Resolve] *)

Definition TableRef_Resolve (stmt : TableRef.t) (e : option Engine)
    (snap : option Snapshot) (ordCol : option OrdCol.t) : result RowReader :=
  match e, snap with
  | Some eng, Some sn =>
      if bool_decide (ordCol ≠ None ∧ (ordCol ≫= OrdCol.sel) = None)
      then Err ErrIllegalArguments
      else
        table ← referencedTable stmt e;
        let colName := Column.colName (Table.pk table) in
        let cmp := GreaterOrEqualTo in
        let initKeyVal : list byte := [] in
        match ordCol with
        | None => newRawRowReader eng sn table colName cmp initKeyVal
        | Some ordCol =>
            match OrdCol.sel ordCol with
            | None => Panic
            | Some sel =>
                if bool_decide (ColSelector.db sel ≠ "")
                   && bool_decide (ColSelector.db sel ≠ DbRef.name (Table.db table))
                then Err ErrInvalidColumn
                else if bool_decide (ColSelector.table sel ≠ "")
                        && bool_decide (ColSelector.table sel ≠ Table.name table)
                then Err ErrInvalidColumn
                else
                  match Table.colsByName table !! ColSelector.col sel with
                  | None => Err ErrColumnDoesNotExist
                  | Some col =>
                      if bool_decide (Column.colName (Table.pk table)
                                      ≠ ColSelector.col sel)
                         && negb (bool_decide (Column.id col ∈ Table.indexes table))
                      then Err ErrColumnNotIndexed
                      else
                        let colName := Column.colName col in
                        let cmp := OrdCol.cmp ordCol in
                        initKeyVal ←
                          (if OrdCol.useInitKeyVal ordCol then
                             if bool_decide (length (maxKeyVal (Column.colType col))
                                             < length initKeyVal)%nat
                             then Err ErrIllegalArguments
                             else Ok (OrdCol.initKeyVal ordCol)
                           else Ok initKeyVal);
                        let initKeyVal :=
                          if negb (OrdCol.useInitKeyVal ordCol)
                             && (bool_decide (cmp = LowerThan)
                                 || bool_decide (cmp = LowerOrEqualTo))
                          then maxKeyVal (Column.colType col)
                          else initKeyVal in
                        newRawRowReader eng sn table colName cmp initKeyVal
                  end
            end
        end
  | _, _ => Err ErrIllegalArguments
  end.

(** [SelectStmt.Resolve]; the stages after the joins are not written yet
    in the source and leave the reader as it is. *)
Fixpoint SelectStmt_Resolve (stmt : SelectStmt) (e : option Engine)
    (snap : option Snapshot) (ordCol : option OrdCol.t) : result RowReader :=
  match ordCol with
  | Some _ => Err ErrLimitedOrderBy
  | None =>
      _ ← SelectStmt_CompileUsing stmt e;
      let 'mkSelectStmt _ _ ds joins _ _ _ _ orderBy _ := stmt in
      let orderByCol :=
        if bool_decide (0 < length orderBy)%nat then orderBy !! 0%nat
        else None in
      rowReader ←
        match ds with
        | DSTableRef t => TableRef_Resolve t e snap orderByCol
        | DSSelectStmt s => SelectStmt_Resolve s e snap orderByCol
        end;
      match joins with
      | Some js => newJointRowReader e snap rowReader js
      | None => Ok rowReader
      end
  end.

End Compiler.

(** *** [isDDL] *)

(** [SQLStmt.isDDL]; a transaction answers [true] at the first of its
    statements that does. *)
Fixpoint isDDL (stmt : SQLStmt) : bool :=
  match stmt with
  | TxStmt stmts =>
      (fix loop (stmts : list SQLStmt) : bool :=
         match stmts with
         | [] => false
         | stmt :: rest => if isDDL stmt then true else loop rest
         end) stmts
  | CreateDatabaseStmt _ => true
  | UseDatabaseStmt _ => false
  | UseSnapshotStmt _ _ => false
  | CreateTableStmt _ _ _ => true
  | CreateIndexStmt _ _ => true
  | AddColumnStmt _ _ => true
  | UpsertIntoStmt _ _ _ => false
  | SelectSQLStmt _ => false
  end.

(** [ColSelector.resolve]: the alias if there is one, else the dotted
    name, with the implicit database where the selector names none. *)
Definition ColSelector_resolve (sel : ColSelector.t) (implicitDatabase : string)
    : string :=
  if bool_decide (ColSelector.as_ sel <> "") then ColSelector.as_ sel
  else if bool_decide (ColSelector.db sel = "")
  then String.append implicitDatabase
         (String.append "."
            (String.append (ColSelector.table sel)
               (String.append "." (ColSelector.col sel))))
  else String.append (ColSelector.db sel)
         (String.append "."
            (String.append (ColSelector.table sel)
               (String.append "." (ColSelector.col sel)))).

(** ** What the claims speak of *)

(** The column called [name] is the primary key of [table]. *)
Definition names_pk (table : Table.t) (name : string) : Prop :=
  exists col, Table.colsByName table !! name = Some col
              /\ Column.id col = Column.id (Table.pk table).

(** The column called [name] has a secondary index in [table]. *)
Definition names_indexed (table : Table.t) (name : string) : Prop :=
  exists col, Table.colsByName table !! name = Some col
              /\ Column.id col ∈ Table.indexes table.

(** The name of the primary key resolves to the primary key, as in every
    table that [newTable] builds. *)
Definition pk_by_name (table : Table.t) : Prop :=
  Table.colsByName table !! Column.colName (Table.pk table)
  = Some (Table.pk table).

(** A well-formed table: the primary key is found under its name, and
    every column is filed under its own name and its own id.  The
    predicate is decidable, so it can be computed on a given table. *)
Definition Table_wf (table : Table.t) : Prop :=
  pk_by_name table
  /\ map_Forall (fun n c => Column.colName c = n
                            /\ Table.colsByID table !! Column.id c = Some c)
       (Table.colsByName table).

#[global] Instance Table_wf_dec table : Decision (Table_wf table).
Proof. unfold Table_wf, pk_by_name. apply _. Defined.

(** The selector [sel] designates the column [col]: its column name is
    that of [col], and its database and table, where given, are those of
    [col]. *)
Definition selects (sel : ColSelector.t) (col : Column.t) : Prop :=
  (ColSelector.db sel = ""
   \/ ColSelector.db sel = DbRef.name (TableRefTo.db (Column.table col)))
  /\ (ColSelector.table sel = ""
      \/ ColSelector.table sel = TableRefTo.name (Column.table col))
  /\ ColSelector.col sel = Column.colName col.

(** The pointer [p] is one of the selector nodes that [jointColumnTo]
    visits in [bexp]. *)
Fixpoint selector_in (p : ColSelectorPtr.t) (bexp : BoolExp) : Prop :=
  match bexp with
  | ColSelectorExp q => p = q
  | NotBoolExp exp => selector_in p exp
  | CmpBoolExp _ l r => selector_in p l \/ selector_in p r
  | BinBoolExp _ l r => selector_in p l \/ selector_in p r
  | _ => False
  end.

(** A table of a sound catalog: well formed, and every indexed id is the
    id of one of its columns. *)
Definition Table_ok (table : Table.t) : Prop :=
  Table_wf table
  /\ forall k, k ∈ Table.indexes table ->
               is_Some (Table.colsByID table !! k).

(** A sound engine: the implicit database, when one is selected, is in
    the catalog, and every table of the catalog is sound. *)
Definition Engine_ok (eng : Engine) : Prop :=
  (implicitDatabase eng = ""
   \/ is_Some (Catalog.dbsByName (catalog eng) !! implicitDatabase eng))
  /\ forall dn d tn tb,
       Catalog.dbsByName (catalog eng) !! dn = Some d ->
       Database.tablesByName d !! tn = Some tb -> Table_ok tb.

(** Every ordering column of the SELECT statements that [CompileUsing]
    reaches in [stmt] has a selector. *)
Fixpoint selectors_given (stmt : SQLStmt) : Prop :=
  match stmt with
  | TxStmt stmts =>
      (fix all (stmts : list SQLStmt) : Prop :=
         match stmts with
         | [] => True
         | stmt :: rest => selectors_given stmt /\ all rest
         end) stmts
  | SelectSQLStmt s =>
      Forall (fun oc => OrdCol.sel oc <> None) (SelectStmt_orderBy s)
  | _ => True
  end.

(** ** A running example

    The codec below serves to run the compiler on examples; the theorems
    hold for every codec. *)

(** Modelled from the spec: [encodeValue] is declared outside [stmt.go].
    "INTEGER: 8 bytes big-endian", sign-flipped as a key; "BOOLEAN: one
    byte"; "STRING / BLOB: 4-byte big-endian length prefix followed by the
    raw bytes"; the function "enforces type compatibility and refuses to
    encode an unbound Param". *)
Definition encodeValue_model (v : Value.t) (ty : SQLValueType) (asKey : bool)
    : result (list byte) :=
  match v with
  | Value.Number n =>
      if bool_decide (ty = IntegerType)
      then Ok (be_bytes 8 (if asKey then uint64 (n + 2 ^ 63) else uint64 n))
      else Err ErrInvalidValue
  | Value.String s =>
      if bool_decide (ty = StringType)
      then Ok (PutUint32 (len s) ++ bytes_of s)
      else Err ErrInvalidValue
  | Value.Bool b =>
      if bool_decide (ty = BooleanType)
      then Ok [if b then x01 else x00]
      else Err ErrInvalidValue
  | Value.Blob bs =>
      if bool_decide (ty = BLOBType)
      then Ok (PutUint32 (N.of_nat (length bs)) ++ bs)
      else Err ErrInvalidValue
  | Value.SysFn _ => Err ErrInvalidValue
  | Value.Param _ => Err ErrInvalidValue
  end.

(** A loop order for the examples: the order of stdpp's listings, at
    every row. *)
Definition mapRange_model (m : gmap N Column.t) : list (N * Column.t) :=
  map_to_list m.
Definition setRange_model (n : nat) (s : gset N) : list N := elements s.

Definition compile_model : SQLStmt -> option Engine -> option Engine * result KVs :=
  CompileUsing encodeValue_model mapRange_model setRange_model.

(** An engine without key prefix and with an empty catalog. *)
Definition engine0 : option Engine := Some (mkEngine [] (Catalog.mk ∅) "").

(** [CREATE DATABASE db1; USE db1;
     CREATE TABLE t(id INTEGER, name STRING, PK id)] *)
Definition setup_stmts : list SQLStmt :=
  [ CreateDatabaseStmt "db1";
    UseDatabaseStmt "db1";
    CreateTableStmt "t"
      [ColSpec.mk "id" IntegerType; ColSpec.mk "name" StringType] "id" ].

(** The engine after the statements of [setup_stmts]. *)
Definition engine_t : option Engine :=
  fst (compile_model (TxStmt setup_stmts) engine0).

(** The engine after [CREATE INDEX ON t(name)] on top of that. *)
Definition engine_ix : option Engine :=
  fst (compile_model (CreateIndexStmt "t" "name") engine_t).

(** The engine after [CREATE DATABASE db1; USE db1] alone. *)
Definition engine_db1 : option Engine :=
  fst (compile_model
         (TxStmt [CreateDatabaseStmt "db1"; UseDatabaseStmt "db1"]) engine0).

(** [CREATE TABLE t(id INTEGER, name STRING, PK id)] *)
Definition create_t : SQLStmt :=
  CreateTableStmt "t"
    [ColSpec.mk "id" IntegerType; ColSpec.mk "name" StringType] "id".

(** The pointee of an engine pointer, the selected database of an engine
    and one of its tables, for the examples (with defaults that the
    examples never reach). *)
Definition engine_of (e : option Engine) : Engine :=
  default (mkEngine [] (Catalog.mk ∅) "") e.

Definition selected_db (e : Engine) : Database.t :=
  default (Database.mk 0 "" ∅)
    (Catalog.dbsByName (catalog e) !! implicitDatabase e).

Definition table_named (e : Engine) (name : string) : Table.t :=
  default (Table.mk (DbRef.mk 0 "") 0 "" ∅ ∅
             (Column.mk (TableRefTo.mk (DbRef.mk 0 "") 0 "") 0 "" "") ∅)
    (Database.tablesByName (selected_db e) !! name).

Definition eng_t : Engine := engine_of engine_t.
Definition eng_ix : Engine := engine_of engine_ix.

Definition t_ref : TableRef.t := TableRef.mk "" "t" "".

(** [UPSERT INTO t(id, name) VALUES (1, 'a'), (2, 'b')] *)
Definition rows_ab : list RowSpec.t :=
  [ RowSpec.mk [Value.Number 1; Value.String "a"];
    RowSpec.mk [Value.Number 2; Value.String "b"] ].

Definition upsert_ab : SQLStmt := UpsertIntoStmt t_ref ["id"; "name"] rows_ab.

(** [UPSERT INTO t(id, name) VALUES (1, 'a'), (2)] *)
Definition rows_short : list RowSpec.t :=
  [ RowSpec.mk [Value.Number 1; Value.String "a"];
    RowSpec.mk [Value.Number 2] ].

Definition sel_of (col : string) : ColSelector.t := ColSelector.mk "" "" col "".

(** [SELECT * FROM src ORDER BY orderBy] *)
Definition select_from (src : DataSource) (orderBy : list OrdCol.t) : SelectStmt :=
  mkSelectStmt false [] src None None None None 0 orderBy "".

Definition order_by (col : string) : OrdCol.t :=
  OrdCol.mk (Some (sel_of col)) GreaterOrEqualTo [] false.

(** The column [id] of the table [t] of [db1], and three selectors at
    distinct addresses: [id], [u.a] and [u.b]. *)
Definition col_id : Column.t :=
  Column.mk (TableRefTo.mk (DbRef.mk 1 "db1") 1 "t") 1 "id" IntegerType.
Definition sel_id : ColSelectorPtr.t := ColSelectorPtr.mk 100 (sel_of "id").
Definition sel_a : ColSelectorPtr.t :=
  ColSelectorPtr.mk 101 (ColSelector.mk "" "u" "a" "").
Definition sel_b : ColSelectorPtr.t :=
  ColSelectorPtr.mk 102 (ColSelector.mk "" "u" "b" "").

(** [id = u.a] and [id = u.b] *)
Definition id_eq_a : BoolExp :=
  CmpBoolExp CmpOperator.EQ (ColSelectorExp sel_id) (ColSelectorExp sel_a).
Definition id_eq_b : BoolExp :=
  CmpBoolExp CmpOperator.EQ (ColSelectorExp sel_id) (ColSelectorExp sel_b).

(** Stand-ins for the store and the row readers, to run [Resolve] on
    examples: a reader is described by the column, the comparison and the
    start key of its scan; the theorems hold for every reader. *)
Definition Snapshot_model : Type := unit.
Definition RowReader_model : Type := (string * Comparison * list byte)%type.

Definition newRawRowReader_model (e : Engine) (snap : Snapshot_model)
    (table : Table.t) (colName : string) (cmp : Comparison)
    (initKeyVal : list byte) : result RowReader_model :=
  Ok (colName, cmp, initKeyVal).

Definition newJointRowReader_model (e : option Engine)
    (snap : option Snapshot_model) (r : RowReader_model)
    (joins : list JoinSpec) : result RowReader_model :=
  Ok r.

(** Modelled from the spec: [maxKeyVal] is declared outside [stmt.go];
    the spec fixes only that every type has a greatest key.  Eight bytes
    [0xff] stand for it in the examples. *)
Definition maxKeyVal_model (ty : SQLValueType) : list byte := replicate 8 xff.

Definition resolve_table_model :=
  TableRef_Resolve Snapshot_model RowReader_model maxKeyVal_model
    newRawRowReader_model.

Definition resolve_select_model :=
  SelectStmt_Resolve Snapshot_model RowReader_model maxKeyVal_model
    newRawRowReader_model newJointRowReader_model.

(** The engine of [engine0], and the engine after [CREATE DATABASE db1]
    alone, where no database is selected yet. *)
Definition eng0 : Engine := mkEngine [] (Catalog.mk ∅) "".
Definition eng_created : Engine :=
  engine_of (fst (compile_model (CreateDatabaseStmt "db1") engine0)).

(** [SELECT * FROM t ORDER BY name DESC] *)
Definition order_by_desc (col : string) : OrdCol.t :=
  OrdCol.mk (Some (sel_of col)) LowerThan [] false.

(** * Properties *)

(** ** The running example *)

Lemma engine_ix_table :
  exists eng d tb,
    engine_ix = Some eng
    /\ implicitDatabase eng = "db1"
    /\ Catalog.dbsByName (catalog eng) !! "db1" = Some d
    /\ Database.tablesByName d !! "t" = Some tb
    /\ Column.colName (Table.pk tb) = "id"
    /\ Table.indexes tb = {[2]}
    /\ Table.colsByName tb !! "name"
       = Some (Column.mk (TableRefTo.mk (DbRef.mk 1 "db1") 1 "t") 2
                 "name" StringType)
    /\ Table_wf tb.
Proof.
  eexists _, _, _.
  split; [vm_compute; reflexivity|].
  split; [reflexivity|].
  split; [vm_compute; reflexivity|].
  split; [vm_compute; reflexivity|].
  split; [reflexivity|].
  split; [vm_compute; reflexivity|].
  split; [vm_compute; reflexivity|].
  apply (bool_decide_unpack _). vm_compute. exact I.
Qed.

(** ** [TableRef.referencedTable] *)

(** The [db] field of the statement plays no part in the result. *)
Lemma referencedTable_db_unused (db db' table as_ as_' : string) e :
  referencedTable (TableRef.mk db table as_) e
  = referencedTable (TableRef.mk db' table as_') e.
Proof. destruct e; reflexivity. Qed.

(** What the function computes: the table of that name in the implicit
    database. *)
Lemma referencedTable_implicit stmt eng :
  implicitDatabase eng <> "" ->
  referencedTable stmt (Some eng)
  = match Catalog.dbsByName (catalog eng) !! implicitDatabase eng with
    | None => Panic
    | Some d =>
        match Database.tablesByName d !! TableRef.table stmt with
        | None => Err ErrTableDoesNotExist
        | Some table => Ok table
        end
    end.
Proof.
  intros Hdb. unfold referencedTable. cbn.
  rewrite bool_decide_eq_false_2 by exact Hdb. reflexivity.
Qed.

Lemma referencedTable_nil stmt : referencedTable stmt None = Err ErrIllegalArguments.
Proof. reflexivity. Qed.

Lemma referencedTable_no_database stmt eng :
  implicitDatabase eng = "" ->
  referencedTable stmt (Some eng) = Err ErrNoDatabaseSelected.
Proof.
  intros Hdb. unfold referencedTable. cbn.
  rewrite bool_decide_eq_true_2 by exact Hdb. reflexivity.
Qed.

(** C3, at a statement that names a database missing from the catalog:
    with [db1] selected and [db2] unknown, [referencedTable] on [db2.t]
    does not fail with DatabaseDoesNotExist but returns the table [t] of
    [db1]. *)
Theorem referencedTable_unknown_db_resolves_in_implicit :
  (exists eng, engine_ix = Some eng
               /\ Catalog.ExistDatabase (catalog eng) "db2" = false
               /\ implicitDatabase eng = "db1")
  /\ referencedTable (TableRef.mk "db2" "t" "") engine_ix
     <> Err ErrDatabaseDoesNotExist
  /\ exists table,
       referencedTable (TableRef.mk "db2" "t" "") engine_ix = Ok table
       /\ Table.name table = "t"
       /\ DbRef.name (Table.db table) = "db1".
Proof.
  split; [|split].
  - vm_compute. eexists. repeat split.
  - vm_compute. discriminate.
  - vm_compute. eexists. repeat split.
Qed.

(** ** [jointColumnTo] *)

Lemma ptr_neqb_same p : ptr_neqb p p = false.
Proof.
  destruct p as [p|]; [|reflexivity].
  unfold ptr_neqb, ColSelectorPtr.eqb.
  rewrite bool_decide_eq_true_2; reflexivity.
Qed.

Lemma ColSelector_jointColumnTo_cases sel col :
  ColSelector_jointColumnTo sel col = (Some sel, None)
  \/ ColSelector_jointColumnTo sel col = (None, Some ErrJointColumnNotFound).
Proof.
  unfold ColSelector_jointColumnTo.
  repeat match goal with |- context [if ?b then _ else _] => destruct b end;
    auto.
Qed.

(** An error never comes with a pointer. *)
Lemma jointColumnTo_error_nil_ptr bexp col :
  snd (jointColumnTo bexp col) <> None -> fst (jointColumnTo bexp col) = None.
Proof.
  induction bexp as [v|sel|exp IH|c pat|op l IHl r IHr|op l IHl r IHr|q];
    cbn [jointColumnTo]; try reflexivity.
  - destruct (ColSelector_jointColumnTo_cases sel col) as [-> | ->];
      cbn; congruence.
  - exact IH.
  - unfold CmpBoolExp_jointColumnTo.
    destruct (bool_decide (op <> CmpOperator.EQ)); [reflexivity|].
    destruct (as_ColSelector l) as [sl|]; [|reflexivity].
    destruct (as_ColSelector r) as [sr|]; [|reflexivity].
    repeat match goal with |- context [if ?b then _ else _] => destruct b end;
      cbn; congruence.
  - destruct (jointColumnTo l col) as [jl el].
    repeat match goal with |- context [if ?b then _ else _] => destruct b end;
      cbn in *; congruence.
Qed.

(** The result of a [BinBoolExp] is the result of its left operand: the
    right operand is never looked at, and InvalidJointColumn is never
    raised at this node. *)
Lemma jointColumnTo_BinBoolExp_left op l r col :
  jointColumnTo (BinBoolExp op l r) col = jointColumnTo l col.
Proof.
  cbn [jointColumnTo].
  pose proof (jointColumnTo_error_nil_ptr l col) as Hnil.
  destruct (jointColumnTo l col) as [jl el]. cbn in Hnil.
  rewrite ptr_neqb_same.
  destruct el as [err|].
  - rewrite Hnil by discriminate.
    destruct (decide (err = ErrJointColumnNotFound)) as [->|Hne].
    + reflexivity.
    + rewrite (bool_decide_eq_true_2 (Some err <> None)) by discriminate.
      rewrite (bool_decide_eq_true_2 (Some err <> Some ErrJointColumnNotFound))
        by congruence.
      reflexivity.
  - reflexivity.
Qed.

(** C5, on three expressions.  The column [id] is referenced by the right
    operand only, and the code answers JointColumnNotFound where the claim
    promises the selector.  In [(id = u.a) AND (id = u.b)] the operands
    resolve to the distinct selectors [u.a] and [u.b], and the code
    answers [u.a] where the claim promises InvalidJointColumn.  The slip
    is one and the same: [jcolRight] is computed from [bexp.left]. *)
Theorem BinBoolExp_jointColumnTo_reads_left_twice :
  jointColumnTo (ValueExp (Value.Number 1)) col_id
  = (None, Some ErrJointColumnNotFound)
  /\ jointColumnTo (ColSelectorExp sel_id) col_id = (Some sel_id, None)
  /\ jointColumnTo
       (BinBoolExp LogicOperator.AND (ValueExp (Value.Number 1))
          (ColSelectorExp sel_id)) col_id
     = (None, Some ErrJointColumnNotFound)
  /\ jointColumnTo id_eq_a col_id = (Some sel_a, None)
  /\ jointColumnTo id_eq_b col_id = (Some sel_b, None)
  /\ ptr_neqb (Some sel_a) (Some sel_b) = true
  /\ jointColumnTo (BinBoolExp LogicOperator.AND id_eq_a id_eq_b) col_id
     = (Some sel_a, None).
Proof. repeat split; vm_compute; reflexivity. Qed.

(** ** [SelectStmt.CompileUsing] *)

(** C6: ORDER BY on more than one column, or on a source that is not a
    table reference, fails with LimitedOrderBy; for one ordering column on
    a table that [referencedTable] finds, compilation fails with
    LimitedOrderBy when the named column is neither the primary key nor
    indexed, and succeeds with no entry when it is one of the two. *)
Theorem SelectStmt_CompileUsing_order_by (stmt : SelectStmt) (e : option Engine) :
  ((1 < length (SelectStmt_orderBy stmt))%nat ->
     SelectStmt_CompileUsing stmt e = Err ErrLimitedOrderBy)
  /\ (SelectStmt_orderBy stmt <> [] ->
      (forall tr, SelectStmt_ds stmt <> DSTableRef tr) ->
      SelectStmt_CompileUsing stmt e = Err ErrLimitedOrderBy)
  /\ (forall oc tr table sel,
        SelectStmt_orderBy stmt = [oc] ->
        SelectStmt_ds stmt = DSTableRef tr ->
        referencedTable tr e = Ok table ->
        OrdCol.sel oc = Some sel ->
        (~ names_pk table (ColSelector.col sel) ->
         ~ names_indexed table (ColSelector.col sel) ->
         SelectStmt_CompileUsing stmt e = Err ErrLimitedOrderBy)
        /\ (names_pk table (ColSelector.col sel)
            \/ names_indexed table (ColSelector.col sel) ->
            SelectStmt_CompileUsing stmt e = Ok ([], []))).
Proof.
  unfold SelectStmt_CompileUsing.
  split; [|split].
  - intros Hlen. rewrite bool_decide_eq_true_2 by exact Hlen. reflexivity.
  - intros Hne Hds.
    case_bool_decide; [reflexivity|].
    rewrite bool_decide_eq_true_2
      by (destruct (SelectStmt_orderBy stmt); [congruence | cbn; lia]).
    destruct (SelectStmt_ds stmt) as [tr|s]; [|reflexivity].
    exfalso. exact (Hds tr eq_refl).
  - intros oc tr table sel Hob Hds Htab Hsel.
    rewrite Hob, Hds, Htab. cbn. rewrite Hsel.
    rewrite (bool_decide_eq_false_2 (1 < 1)%nat) by lia.
    rewrite (bool_decide_eq_true_2 (0 < 1)%nat) by lia.
    unfold names_pk, names_indexed.
    destruct (Table.colsByName table !! ColSelector.col sel) as [col|] eqn:Hcol.
    + split.
      * intros Hpk Hix.
        rewrite bool_decide_eq_false_2
          by (intros Heq; apply Hpk; exists col; split; congruence).
        rewrite bool_decide_eq_false_2
          by (intros Hin; apply Hix; exists col; split; congruence).
        reflexivity.
      * intros [(c & Hc & Hid) | (c & Hc & Hin)];
          assert (c = col) as -> by congruence.
        -- rewrite bool_decide_eq_true_2 by congruence. reflexivity.
        -- case_bool_decide; [reflexivity|].
           rewrite bool_decide_eq_true_2 by exact Hin. reflexivity.
    + split; [reflexivity|].
      intros [(c & Hc & _) | (c & Hc & _)]; discriminate.
Qed.

(** ** [CreateIndexStmt.CompileUsing] *)

(** C7: on a table [tb] called [table] of the selected database,
    CREATE INDEX on the primary key fails with IndexAlreadyExists, on a
    name that is no column with ColumnDoesNotExist, on an indexed column
    with IndexAlreadyExists, each leaving the engine as it was; otherwise
    it returns the single entry under CATALOG.INDEX and leaves the table
    with the id of the column added to its indexes. *)
Theorem CreateIndexStmt_CompileUsing_cases
    (table col : string) (eng : Engine) (d : Database.t) (tb : Table.t) :
  implicitDatabase eng <> "" ->
  Catalog.dbsByName (catalog eng) !! implicitDatabase eng = Some d ->
  Database.tablesByName d !! table = Some tb ->
  pk_by_name tb ->
  (Column.colName (Table.pk tb) = col ->
     CreateIndexStmt_CompileUsing table col (Some eng)
     = (Some eng, Err ErrIndexAlreadyExists))
  /\ (Table.colsByName tb !! col = None ->
      CreateIndexStmt_CompileUsing table col (Some eng)
      = (Some eng, Err ErrColumnDoesNotExist))
  /\ (names_indexed tb col ->
      CreateIndexStmt_CompileUsing table col (Some eng)
      = (Some eng, Err ErrIndexAlreadyExists))
  /\ (forall c,
        Column.colName (Table.pk tb) <> col ->
        Table.colsByName tb !! col = Some c ->
        Column.id c ∉ Table.indexes tb ->
        exists eng' d' tb' ce,
          CreateIndexStmt_CompileUsing table col (Some eng)
          = (Some eng', Ok ([ce], []))
          /\ Key ce = prefix eng ++ bytes_of catalogIndexPrefix
                      ++ encodeID (DbRef.id (Table.db tb))
                      ++ encodeID (Table.id tb) ++ encodeID (Column.id c)
          /\ implicitDatabase eng' = implicitDatabase eng
          /\ Catalog.dbsByName (catalog eng') !! implicitDatabase eng = Some d'
          /\ Database.tablesByName d' !! table = Some tb'
          /\ Table.indexes tb' = {[Column.id c]} ∪ Table.indexes tb
          /\ Table.colsByName tb' = Table.colsByName tb
          /\ Table.pk tb' = Table.pk tb).
Proof.
  intros Hsel Hd Htb Hpk.
  unfold CreateIndexStmt_CompileUsing.
  rewrite bool_decide_eq_false_2 by exact Hsel.
  rewrite Hd, Htb.
  split; [|split; [|split]].
  - intros Hcol. rewrite bool_decide_eq_true_2 by exact Hcol. reflexivity.
  - intros Hnone.
    rewrite bool_decide_eq_false_2.
    + rewrite Hnone. reflexivity.
    + intros Heq. unfold pk_by_name in Hpk. rewrite Heq in Hpk. congruence.
  - intros (c & Hc & Hin).
    case_bool_decide; [reflexivity|].
    rewrite Hc. rewrite bool_decide_eq_true_2 by exact Hin. reflexivity.
  - intros c Hne Hc Hnin.
    rewrite bool_decide_eq_false_2 by exact Hne.
    rewrite Hc. rewrite bool_decide_eq_false_2 by exact Hnin.
    eexists _, _, _, _.
    split; [reflexivity|].
    split.
    { unfold mapKey.
      cbn [Key concat prefix set_catalog Table.db Table.id Table.with_indexes].
      rewrite app_nil_r. reflexivity. }
    cbn [implicitDatabase catalog set_catalog Catalog.dbsByName
         Database.tablesByName Database.with_tables].
    split; [reflexivity|].
    split; [apply lookup_insert_eq|].
    split; [apply lookup_insert_eq|].
    repeat split.
Qed.

(** ** Properties that hold for every codec, reader and loop order *)

Section Properties.

Variable Snapshot : Type.
Variable RowReader : Type.
Variable encodeValue : Value.t -> SQLValueType -> bool -> result (list byte).
Variable maxKeyVal : SQLValueType -> list byte.
Variable newRawRowReader :
  Engine -> Snapshot -> Table.t -> string -> Comparison -> list byte ->
  result RowReader.
Variable newJointRowReader :
  option Engine -> option Snapshot -> RowReader -> list JoinSpec ->
  result RowReader.
Variable mapRange : gmap N Column.t -> list (N * Column.t).
Variable setRange : nat -> gset N -> list N.
Hypothesis mapRange_perm : forall m, mapRange m ≡ₚ map_to_list m.
Hypothesis setRange_perm : forall n s, setRange n s ≡ₚ elements s.

(** A proof depends on the variables of its statement, and on the
    hypotheses on the loop order only where it says so. *)
#[local] Set Default Proof Using "Type".

Local Abbreviation compile := (CompileUsing encodeValue mapRange setRange).
Local Abbreviation tx_loop := (Tx_loop encodeValue mapRange setRange).
Local Abbreviation tx_outputs := (Tx_outputs encodeValue mapRange setRange).
Local Abbreviation resolve_table :=
  (TableRef_Resolve Snapshot RowReader maxKeyVal newRawRowReader).
Local Abbreviation resolve_select :=
  (SelectStmt_Resolve Snapshot RowReader maxKeyVal newRawRowReader
     newJointRowReader).

(** *** [SelectStmt.Resolve] *)

(** C10: a nested SELECT never accepts an ordering column. *)
Theorem SelectStmt_Resolve_rejects_ordCol
    (stmt : SelectStmt) (e : option Engine) (snap : option Snapshot)
    (ordCol : OrdCol.t) :
  resolve_select stmt e snap (Some ordCol) = Err ErrLimitedOrderBy.
Proof. destruct stmt; reflexivity. Qed.

(** *** [TableRef.Resolve] *)

(** The scan that [Resolve] asks for, for an ordering column that passes
    the checks: the start key is the key of the caller when
    [useInitKeyVal] is set, whatever its length; otherwise it is
    [maxKeyVal] for a descending scan and empty for an ascending one. *)
Lemma TableRef_Resolve_ordered stmt eng sn oc sel table col :
  referencedTable stmt (Some eng) = Ok table ->
  OrdCol.sel oc = Some sel ->
  ColSelector.db sel = "" \/ ColSelector.db sel = DbRef.name (Table.db table) ->
  ColSelector.table sel = "" \/ ColSelector.table sel = Table.name table ->
  Table.colsByName table !! ColSelector.col sel = Some col ->
  Column.colName (Table.pk table) = ColSelector.col sel
    \/ Column.id col ∈ Table.indexes table ->
  resolve_table stmt (Some eng) (Some sn) (Some oc)
  = newRawRowReader eng sn table (Column.colName col) (OrdCol.cmp oc)
      (if OrdCol.useInitKeyVal oc then OrdCol.initKeyVal oc
       else match OrdCol.cmp oc with
            | LowerThan | LowerOrEqualTo => maxKeyVal (Column.colType col)
            | _ => []
            end).
Proof.
  intros Htab Hsel Hdb Htb Hcol Hix.
  unfold TableRef_Resolve.
  rewrite bool_decide_eq_false_2
    by (cbn; rewrite Hsel; intros [_ ?]; discriminate).
  rewrite Htab. cbn. rewrite Hsel.
  assert (bool_decide (ColSelector.db sel <> "")
          && bool_decide (ColSelector.db sel <> DbRef.name (Table.db table))
          = false) as ->.
  { destruct Hdb as [H|H].
    - rewrite (bool_decide_eq_false_2 (ColSelector.db sel <> "")) by (intros Hn; apply Hn; assumption).
      reflexivity.
    - rewrite (bool_decide_eq_false_2
                 (ColSelector.db sel <> DbRef.name (Table.db table))) by (intros Hn; apply Hn; assumption).
      apply andb_false_r. }
  assert (bool_decide (ColSelector.table sel <> "")
          && bool_decide (ColSelector.table sel <> Table.name table)
          = false) as ->.
  { destruct Htb as [H|H].
    - rewrite (bool_decide_eq_false_2 (ColSelector.table sel <> "")) by (intros Hn; apply Hn; assumption).
      reflexivity.
    - rewrite (bool_decide_eq_false_2
                 (ColSelector.table sel <> Table.name table)) by (intros Hn; apply Hn; assumption).
      apply andb_false_r. }
  rewrite Hcol.
  assert (bool_decide (Column.colName (Table.pk table) <> ColSelector.col sel)
          && negb (bool_decide (Column.id col ∈ Table.indexes table))
          = false) as ->.
  { destruct Hix as [H|H].
    - rewrite (bool_decide_eq_false_2 (_ <> _)) by (intros Hn; apply Hn; assumption). reflexivity.
    - rewrite (bool_decide_eq_true_2 (_ ∈ _)) by exact H. apply andb_false_r. }
  rewrite (bool_decide_eq_false_2 (_ < _)%nat) by (cbn; lia).
  destruct (OrdCol.useInitKeyVal oc); cbn; [reflexivity|].
  destruct (OrdCol.cmp oc); reflexivity.
Qed.

(** C8, at a start key one byte longer than [maxKeyVal] allows: ordering
    the table [t] by its indexed column [name] with [useInitKeyVal] set,
    [Resolve] does not fail with IllegalArguments but starts the scan at
    that key.  The guard measures the local [initKeyVal], still empty,
    where it should measure [ordCol.initKeyVal]. *)
Theorem TableRef_Resolve_long_initKeyVal_not_rejected
    (sn : Snapshot) (cmp : Comparison) :
  let key := maxKeyVal StringType ++ [x00] in
  let ordCol := OrdCol.mk (Some (sel_of "name")) cmp key true in
  (length (maxKeyVal StringType) < length (OrdCol.initKeyVal ordCol))%nat
  /\ exists eng table,
       engine_ix = Some eng
       /\ referencedTable (TableRef.mk "" "t" "") engine_ix = Ok table
       /\ resolve_table (TableRef.mk "" "t" "") engine_ix (Some sn) (Some ordCol)
          = newRawRowReader eng sn table "name" cmp key.
Proof.
  intros key ordCol. split.
  { subst ordCol key. cbn. rewrite length_app. cbn. lia. }
  destruct engine_ix_table
    as (eng & d & tb & Heng & Himp & Hd & Htb & Hpk & Hix & Hname & Hwf).
  assert (referencedTable (TableRef.mk "" "t" "") (Some eng) = Ok tb) as Href.
  { rewrite referencedTable_implicit by (rewrite Himp; discriminate).
    rewrite Himp, Hd. cbn. rewrite Htb. reflexivity. }
  exists eng, tb. rewrite Heng.
  split; [reflexivity|]. split; [exact Href|].
  rewrite (TableRef_Resolve_ordered (TableRef.mk "" "t" "") eng sn ordCol
             (sel_of "name") tb _ Href eq_refl (or_introl eq_refl)
             (or_introl eq_refl) Hname).
  - reflexivity.
  - right. cbn. rewrite Hix. set_solver.
Qed.

(** *** [TxStmt.CompileUsing] *)

Lemma CompileUsing_TxStmt stmts e :
  compile (TxStmt stmts) e = tx_loop stmts e [] [].
Proof.
  cbn [CompileUsing].
  generalize (@nil KV) at 1 3 as ces. generalize (@nil KV) as des.
  revert e.
  induction stmts as [|stmt rest IH]; intros e des ces; [reflexivity|].
  cbn [Tx_loop].
  destruct (compile stmt e) as [e1 [[cs ds]|err|]]; auto.
Qed.

(** The loop never touches [des]; [ces] grows by the catalog entries of
    the statements, in order. *)
Lemma Tx_loop_Ok stmts : forall e ces des e' ces' des',
  tx_loop stmts e ces des = (e', Ok (ces', des')) ->
  des' = des
  /\ ces' = ces ++ concat (map fst (tx_outputs stmts e))
  /\ length (tx_outputs stmts e) = length stmts.
Proof.
  induction stmts as [|stmt rest IH]; intros e ces des e' ces' des' H;
    cbn [Tx_loop Tx_outputs] in *.
  - inversion H; subst. cbn. rewrite app_nil_r. auto.
  - destruct (compile stmt e) as [e1 [[cs ds]|err|]]; try discriminate.
    apply IH in H as (-> & -> & Hlen).
    cbn. rewrite Hlen, app_assoc. auto.
Qed.

(** Whatever the statements of a transaction emit, the transaction
    returns no data entry; its catalog entries are those of its
    statements, in order. *)
Lemma TxStmt_CompileUsing_Ok stmts e e' ces des :
  compile (TxStmt stmts) e = (e', Ok (ces, des)) ->
  des = []
  /\ ces = concat (map fst (tx_outputs stmts e))
  /\ length (tx_outputs stmts e) = length stmts.
Proof.
  rewrite CompileUsing_TxStmt. intros H.
  apply Tx_loop_Ok in H as (-> & -> & Hlen). auto.
Qed.

(** *** [CreateTableStmt.CompileUsing] *)

Lemma newColumns_size tref specs : forall byID byName byID' byName',
  (forall k c, byID !! k = Some c -> k <= N.of_nat (size byID)) ->
  newColumns tref specs byID byName = Ok (byID', byName') ->
  size byID' = (size byID + length specs)%nat
  /\ (forall k c, byID' !! k = Some c -> k <= N.of_nat (size byID')).
Proof.
  induction specs as [|cs rest IH]; intros byID byName byID' byName' Hle H;
    cbn [newColumns] in H.
  - inversion H; subst. cbn. split; [lia | exact Hle].
  - destruct (byName !! ColSpec.colName cs); [discriminate|].
    cbn [Column.id Column.colName] in H.
    assert (byID !! (N.of_nat (size byID) + 1) = None) as Hfresh.
    { destruct (byID !! (N.of_nat (size byID) + 1)) as [c|] eqn:Hc;
        [|reflexivity].
      apply Hle in Hc. lia. }
    apply IH in H.
    + rewrite map_size_insert_None in H by exact Hfresh.
      destruct H as [Hsz Hle']. split; [cbn; lia | exact Hle'].
    + intros k c. rewrite map_size_insert_None by exact Hfresh.
      rewrite lookup_insert. case_decide as Hk.
      * intros _. lia.
      * intros Hc. apply Hle in Hc. lia.
Qed.

Lemma mapRange_length m : length (mapRange m) = size m.
Proof using mapRange_perm. rewrite (mapRange_perm m). apply length_map_to_list. Qed.

Lemma setRange_length n s : length (setRange n s) = size s.
Proof using setRange_perm. rewrite (setRange_perm n s). reflexivity. Qed.

(** A CREATE TABLE that compiles returns one entry per declared column,
    each with an empty value, then the entry of the table, whose value is
    the name of the table. *)
Lemma CreateTableStmt_CompileUsing_Ok table colsSpec pk e e' ces des :
  CreateTableStmt_CompileUsing mapRange table colsSpec pk e
  = (e', Ok (ces, des)) ->
  exists cols te,
    ces = cols ++ [te]
    /\ length cols = length colsSpec
    /\ Forall (fun kv => Value kv = []) cols
    /\ Value te = bytes_of table
    /\ des = [].
Proof using mapRange_perm.
  unfold CreateTableStmt_CompileUsing.
  destruct e as [eng|]; [|discriminate].
  case_bool_decide; [discriminate|].
  destruct (Catalog.dbsByName (catalog eng) !! implicitDatabase eng) as [d|];
    [|discriminate].
  destruct (newTable d table colsSpec pk) as [[d' tb]|err|] eqn:Hnew;
    try discriminate.
  intros Hret. inversion Hret; subst; clear Hret.
  unfold newTable in Hnew.
  destruct (Database.tablesByName d !! table); [discriminate|].
  destruct (newColumns _ colsSpec ∅ ∅) as [[byID byName]|err|] eqn:Hcols;
    try discriminate.
  cbn in Hnew.
  destruct (byName !! pk) as [pkCol|]; [|discriminate].
  inversion Hnew; subst; clear Hnew.
  apply newColumns_size in Hcols as [Hsz _];
    [|intros k c; rewrite lookup_empty; discriminate].
  rewrite map_size_empty in Hsz.
  eexists _, _. split; [reflexivity|].
  cbn [Table.colsByID Table.name Value].
  rewrite length_map, mapRange_length.
  repeat split; auto.
  apply Forall_forall. intros kv Hin.
  apply list_elem_of_fmap in Hin as ([colID col] & -> & _). reflexivity.
Qed.

(** *** [UpsertIntoStmt.CompileUsing] *)

Local Abbreviation index_entries := (indexEntries encodeValue).
Local Abbreviation upsert_rows := (Upsert_rows encodeValue setRange).
Local Abbreviation compile_upsert :=
  (UpsertIntoStmt_CompileUsing encodeValue setRange).

(** A key ends with the last of its components. *)
Lemma mapKey_last e p xs x : exists pre, mapKey e p (xs ++ [x]) = pre ++ x.
Proof.
  exists (prefix e ++ bytes_of p ++ concat xs).
  unfold mapKey. rewrite concat_app. cbn [concat].
  rewrite app_nil_r, <- !app_assoc. reflexivity.
Qed.

Lemma index_Ok {A} (s : list A) i x : index s i = Ok x -> s !! i = Some x.
Proof. unfold index. destruct (s !! i); congruence. Qed.

Lemma indexEntries_Ok e table cs row pkEncVal colIDs : forall des out,
  index_entries e table cs row pkEncVal colIDs des = Ok out ->
  exists secs,
    out = des ++ secs
    /\ Forall2 (secondary_entry encodeValue e table row (sel_at cs) pkEncVal)
         colIDs secs.
Proof.
  induction colIDs as [|colID rest IH]; intros des out H;
    cbn [indexEntries] in H.
  - inversion H; subst. exists []. rewrite app_nil_r. auto.
  - destruct (index (RowSpec.Values row) (sel_at cs colID)) as [cVal| |] eqn:HcVal;
      try discriminate.
    cbn [mbind result_bind] in H.
    destruct (Table.colsByID table !! colID) as [col|] eqn:Hcol;
      [|discriminate].
    destruct (encodeValue cVal (Column.colType col) asKey) as [encVal| |] eqn:Henc;
      try discriminate.
    cbn [mbind result_bind] in H.
    apply IH in H as (secs & -> & Hsecs).
    eexists (_ :: secs). split; [rewrite <- app_assoc; reflexivity|].
    constructor; [|exact Hsecs].
    split; [reflexivity|]. split.
    + exists cVal, col, encVal. apply index_Ok in HcVal. auto.
    + cbn [Key].
      apply (mapKey_last e rowPrefix
               [encodeID (DbRef.id (Table.db table)); encodeID (Table.id table);
                encodeID colID; encVal] pkEncVal).
Qed.

(** *** [UpsertIntoStmt.Validate] *)

(** In a well-formed table two names of one column id are one name. *)
Lemma Table_wf_id_inj table n1 n2 c1 c2 :
  Table_wf table ->
  Table.colsByName table !! n1 = Some c1 ->
  Table.colsByName table !! n2 = Some c2 ->
  Column.id c1 = Column.id c2 -> n1 = n2.
Proof.
  intros [_ Hwf] H1 H2 Hid.
  destruct (Hwf n1 c1 H1) as [Hn1 Hi1].
  destruct (Hwf n2 c2 H2) as [Hn2 Hi2].
  rewrite Hid in Hi1. congruence.
Qed.

(** The flag that the loop returns says whether the name of the primary
    key is listed. *)
Lemma Validate_loop_pkIncluded table cols : forall i b sel b' sel',
  Validate_loop table cols i b sel = Ok (b', sel') ->
  b' = b || bool_decide (Column.colName (Table.pk table) ∈ cols).
Proof.
  induction cols as [|c rest IH]; intros i b sel b' sel' H;
    cbn [Validate_loop] in H.
  - inversion H; subst.
    rewrite bool_decide_eq_false_2 by apply not_elem_of_nil.
    symmetry. apply orb_false_r.
  - destruct (Table.colsByName table !! c) as [col|]; [|discriminate].
    destruct (sel !! Column.id col); [discriminate|].
    apply IH in H. subst b'.
    destruct (decide (Column.colName (Table.pk table) = c)) as [Hc|Hc].
    + rewrite (bool_decide_eq_true_2 (_ ∈ c :: rest))
        by (apply elem_of_cons; left; exact Hc).
      rewrite (bool_decide_eq_true_2 (_ = c)) by exact Hc.
      rewrite orb_true_r. reflexivity.
    + rewrite (bool_decide_eq_false_2 (_ = c)) by exact Hc.
      f_equal. apply bool_decide_ext. rewrite elem_of_cons.
      split; [auto | intros [Heq | Hin]; [contradiction | exact Hin]].
Qed.

(** The loop fails with InvalidColumn or with DuplicatedColumn, if it
    fails. *)
Lemma Validate_loop_result table cols : forall i b sel,
  (exists r, Validate_loop table cols i b sel = Ok r)
  \/ Validate_loop table cols i b sel = Err ErrInvalidColumn
  \/ Validate_loop table cols i b sel = Err ErrDuplicatedColumn.
Proof.
  induction cols as [|c rest IH]; intros i b sel; cbn [Validate_loop].
  - left. eauto.
  - destruct (Table.colsByName table !! c) as [col|]; [|auto].
    destruct (sel !! Column.id col); [auto|]. apply IH.
Qed.








(** Where the map of [Validate] sends a column id: to the position of a
    listed name of that column. *)
Lemma Validate_loop_positions table cols : forall i b sel b' sel',
  Validate_loop table cols i b sel = Ok (b', sel') ->
  (forall k j, sel' !! k = Some j ->
     sel !! k = Some j
     \/ exists c col, (i <= j)%nat /\ cols !! (j - i)%nat = Some c
                      /\ Table.colsByName table !! c = Some col
                      /\ Column.id col = k)
  /\ (forall k, is_Some (sel !! k) -> is_Some (sel' !! k))
  /\ (forall c col, c ∈ cols -> Table.colsByName table !! c = Some col ->
                    is_Some (sel' !! Column.id col)).
Proof.
  induction cols as [|c rest IH]; intros i b sel b' sel' H;
    cbn [Validate_loop] in H.
  - inversion H; subst. split; [auto|]. split; [auto|].
    intros c col Hin. apply not_elem_of_nil in Hin. contradiction.
  - destruct (Table.colsByName table !! c) as [col|] eqn:Hcol; [|discriminate].
    destruct (sel !! Column.id col) eqn:Hsel; [discriminate|].
    apply IH in H as (Hpos & Hmono & Hdom).
    split; [|split].
    + intros k j Hk. destruct (Hpos k j Hk) as [Hins | (c' & col' & Hle & Hc' & Hr)].
      * rewrite lookup_insert in Hins. case_decide as Hid.
        -- inversion Hins; subst. right. exists c, col.
           split; [lia|]. rewrite Nat.sub_diag. auto.
        -- left. exact Hins.
      * right. exists c', col'. split; [lia|].
        replace (j - i)%nat with (S (j - S i)) by lia. auto.
    + intros k Hk. apply Hmono. rewrite lookup_insert. case_decide; eauto.
    + intros c' col' Hin Hc'. apply elem_of_cons in Hin as [-> | Hin].
      * rewrite Hcol in Hc'. inversion Hc'; subst.
        apply Hmono. rewrite lookup_insert_eq. eauto.
      * eapply Hdom; eauto.
Qed.

(** On a well-formed table the map of a successful validation sends the
    id of the primary key to the position at which its name is listed:
    the value that the compiler encodes in the keys of a row is the value
    listed for the primary key. *)
Lemma Validate_pk_position table cols cs :
  Table_wf table ->
  Validate cols table = Ok cs ->
  exists j, cs !! Column.id (Table.pk table) = Some j
            /\ cols !! j = Some (Column.colName (Table.pk table))
            /\ sel_at cs (Column.id (Table.pk table)) = j.
Proof.
  intros Hwf. unfold Validate.
  destruct (Validate_loop table cols 0%nat false ∅) as [[b sel]| |] eqn:Hloop;
    try discriminate.
  cbn [mbind result_bind].
  destruct b; [|discriminate]. cbn [negb]. intros Hcs. inversion Hcs; subst.
  pose proof (Validate_loop_pkIncluded _ _ _ _ _ _ _ Hloop) as Hpk.
  cbn [orb] in Hpk. symmetry in Hpk. apply bool_decide_eq_true_1 in Hpk.
  destruct (Validate_loop_positions _ _ _ _ _ _ _ Hloop) as (Hpos & _ & Hdom).
  destruct Hwf as [Hpkn Hcols].
  destruct (Hdom _ _ Hpk Hpkn) as [j Hj].
  exists j. split; [exact Hj|]. split.
  - destruct (Hpos _ _ Hj) as [Hemp | (c & col & _ & Hc & Hcol & Hid)].
    + rewrite lookup_empty in Hemp. discriminate.
    + rewrite Nat.sub_0_r in Hc. rewrite Hc. f_equal.
      exact (Table_wf_id_inj table _ _ _ _ (conj Hpkn Hcols) Hcol Hpkn Hid).
  - unfold sel_at. rewrite Hj. reflexivity.
Qed.

End Properties.

(** ** The compiler on the running example *)

Lemma mapRange_model_perm m : mapRange_model m ≡ₚ map_to_list m.
Proof. reflexivity. Qed.

Lemma setRange_model_perm n s : setRange_model n s ≡ₚ elements s.
Proof. reflexivity. Qed.

Lemma engine_t_eq : engine_t = Some eng_t.
Proof. vm_compute. reflexivity. Qed.

Lemma engine_ix_eq : engine_ix = Some eng_ix.
Proof. vm_compute. reflexivity. Qed.

(** C1, on a transaction of one UPSERT: the UPSERT alone returns four
    data entries, the transaction around it returns none.  The loop
    appends the data entries of a statement to that statement's own [ds],
    never to [des], while it appends the catalog entries to [ces]. *)
Theorem TxStmt_CompileUsing_drops_data_entries :
  (exists des, snd (compile_model upsert_ab engine_ix) = Ok ([], des)
               /\ length des = 4%nat)
  /\ snd (compile_model (TxStmt [upsert_ab]) engine_ix) = Ok ([], []).
Proof.
  split.
  - eexists. split; vm_compute; reflexivity.
  - vm_compute. reflexivity.
Qed.

(** C4, on [CREATE TABLE t(id INTEGER, name STRING, PK id)]: the
    statement returns the entries of the two columns, then the entry of
    the table; the value of the table entry is the name of the table, the
    value of either column entry is empty, where the claim and the comment
    on [catalogColumnPrefix] promise the name of the column. *)
Theorem CreateTableStmt_column_entries_carry_no_name :
  exists c1 c2 te,
    snd (compile_model create_t engine_db1) = Ok ([c1; c2; te], [])
    /\ Value te = bytes_of "t"
    /\ Value c1 = [] /\ Value c2 = []
    /\ bytes_of "id" <> [] /\ bytes_of "name" <> [].
Proof.
  eexists _, _, _.
  split; [vm_compute; reflexivity|].
  repeat split; vm_compute; discriminate.
Qed.

(** *** Instances of the theorems above *)

Lemma SelectStmt_CompileUsing_order_by_witness :
  SelectStmt_CompileUsing
    (select_from (DSTableRef t_ref) [order_by "name"]) (Some eng_ix)
  = Ok ([], [])
  /\ SelectStmt_CompileUsing
       (select_from (DSTableRef t_ref) [order_by "id"]) (Some eng_t)
     = Ok ([], [])
  /\ SelectStmt_CompileUsing
       (select_from (DSTableRef t_ref) [order_by "name"]) (Some eng_t)
     = Err ErrLimitedOrderBy
  /\ SelectStmt_CompileUsing
       (select_from (DSTableRef t_ref) [order_by "id"; order_by "name"])
       (Some eng_ix)
     = Err ErrLimitedOrderBy
  /\ SelectStmt_CompileUsing
       (select_from (DSSelectStmt (select_from (DSTableRef t_ref) []))
          [order_by "id"]) (Some eng_ix)
     = Err ErrLimitedOrderBy.
Proof.
  split; [|split; [|split; [|split]]].
  - refine (proj2 (proj2 (proj2 (SelectStmt_CompileUsing_order_by
                     (select_from (DSTableRef t_ref) [order_by "name"])
                     (Some eng_ix)))
                     (order_by "name") t_ref (table_named eng_ix "t")
                     (sel_of "name") eq_refl eq_refl _ eq_refl) _).
    + vm_compute. reflexivity.
    + right. eexists. split; [vm_compute; reflexivity|].
      apply (bool_decide_unpack _). vm_compute. exact I.
  - refine (proj2 (proj2 (proj2 (SelectStmt_CompileUsing_order_by
                     (select_from (DSTableRef t_ref) [order_by "id"])
                     (Some eng_t)))
                     (order_by "id") t_ref (table_named eng_t "t")
                     (sel_of "id") eq_refl eq_refl _ eq_refl) _).
    + vm_compute. reflexivity.
    + left. eexists. split; vm_compute; reflexivity.
  - refine (proj1 (proj2 (proj2 (SelectStmt_CompileUsing_order_by
                     (select_from (DSTableRef t_ref) [order_by "name"])
                     (Some eng_t)))
                     (order_by "name") t_ref (table_named eng_t "t")
                     (sel_of "name") eq_refl eq_refl _ eq_refl) _ _).
    + vm_compute. reflexivity.
    + intros (col & Hcol & Hid). vm_compute in Hcol.
      inversion Hcol; subst. vm_compute in Hid. discriminate.
    + intros (col & Hcol & Hin). vm_compute in Hcol.
      inversion Hcol; subst.
      apply (bool_decide_pack _) in Hin. vm_compute in Hin. exact Hin.
  - apply (proj1 (SelectStmt_CompileUsing_order_by _ _)). cbn. lia.
  - apply (proj1 (proj2 (SelectStmt_CompileUsing_order_by _ _))).
    + discriminate.
    + intros tr. discriminate.
Defined.

Lemma CreateIndexStmt_CompileUsing_cases_witness :
  CreateIndexStmt_CompileUsing "t" "id" (Some eng_t)
  = (Some eng_t, Err ErrIndexAlreadyExists)
  /\ CreateIndexStmt_CompileUsing "t" "price" (Some eng_t)
     = (Some eng_t, Err ErrColumnDoesNotExist)
  /\ CreateIndexStmt_CompileUsing "t" "name" (Some eng_ix)
     = (Some eng_ix, Err ErrIndexAlreadyExists)
  /\ exists eng' ce,
       CreateIndexStmt_CompileUsing "t" "name" (Some eng_t)
       = (Some eng', Ok ([ce], []))
       /\ Table.indexes (table_named eng' "t") = {[2]}.
Proof.
  assert (forall eng, eng = eng_t \/ eng = eng_ix ->
            implicitDatabase eng <> ""
            /\ Catalog.dbsByName (catalog eng) !! implicitDatabase eng
               = Some (selected_db eng)
            /\ Database.tablesByName (selected_db eng) !! "t"
               = Some (table_named eng "t")
            /\ pk_by_name (table_named eng "t")) as Hctx.
  { intros eng [-> | ->];
      (split; [vm_compute; discriminate|]); repeat split; vm_compute; reflexivity. }
  destruct (Hctx eng_t (or_introl eq_refl)) as (Ht1 & Ht2 & Ht3 & Ht4).
  destruct (Hctx eng_ix (or_intror eq_refl)) as (Hx1 & Hx2 & Hx3 & Hx4).
  split; [|split; [|split]].
  - apply (proj1 (CreateIndexStmt_CompileUsing_cases "t" "id" eng_t _ _
                    Ht1 Ht2 Ht3 Ht4)).
    vm_compute. reflexivity.
  - apply (proj1 (proj2 (CreateIndexStmt_CompileUsing_cases "t" "price" eng_t
                           _ _ Ht1 Ht2 Ht3 Ht4))).
    vm_compute. reflexivity.
  - apply (proj1 (proj2 (proj2 (CreateIndexStmt_CompileUsing_cases "t" "name"
                                  eng_ix _ _ Hx1 Hx2 Hx3 Hx4)))).
    eexists. split; [vm_compute; reflexivity|].
    apply (bool_decide_unpack _). vm_compute. exact I.
  - destruct (proj2 (proj2 (proj2 (CreateIndexStmt_CompileUsing_cases "t" "name"
                                     eng_t _ _ Ht1 Ht2 Ht3 Ht4)))
               (Column.mk (TableRefTo.mk (DbRef.mk 1 "db1") 1 "t") 2
                  "name" StringType))
      as (eng' & d' & tb' & ce & Hret & _ & Himp & Hd' & Htb' & Hix & _).
    + vm_compute. discriminate.
    + vm_compute. reflexivity.
    + intros Hin. apply (bool_decide_pack _) in Hin. vm_compute in Hin.
      exact Hin.
    + exists eng', ce. split; [exact Hret|].
      unfold table_named, selected_db. rewrite Himp, Hd'.
      cbn [from_option id]. rewrite Htb'. cbn [from_option id]. rewrite Hix.
      vm_compute. reflexivity.
Defined.



(** * Further properties of the statements *)

(** ** [jointColumnTo] on selectors and comparisons *)

Lemma ColSelector_jointColumnTo_spec (p : ColSelectorPtr.t) (col : Column.t) :
  (selects (ColSelectorPtr.deref p) col ->
     ColSelector_jointColumnTo p col = (Some p, None))
  /\ (~ selects (ColSelectorPtr.deref p) col ->
      ColSelector_jointColumnTo p col = (None, Some ErrJointColumnNotFound)).
Proof.
  unfold selects, ColSelector_jointColumnTo.
  set (sel := ColSelectorPtr.deref p).
  destruct (decide (ColSelector.db sel = "")) as [Hd|Hd];
    destruct (decide (ColSelector.db sel
                      = DbRef.name (TableRefTo.db (Column.table col)))) as [Hd'|Hd'];
    destruct (decide (ColSelector.table sel = "")) as [Ht|Ht];
    destruct (decide (ColSelector.table sel
                      = TableRefTo.name (Column.table col))) as [Ht'|Ht'];
    destruct (decide (ColSelector.col sel = Column.colName col)) as [Hc|Hc];
    repeat match goal with
           | |- context [bool_decide ?P] =>
               first [ rewrite (bool_decide_eq_true_2 P) by congruence
                     | rewrite (bool_decide_eq_false_2 P) by congruence ]
           end;
    cbn [andb]; split; intros H; try reflexivity;
    solve [ exfalso; apply H; auto
          | exfalso; destruct H as ([?|?] & [?|?] & ?); congruence ].
Qed.

(** [ColSelector.jointColumnTo] answers the selector itself when it
    designates the column, and JointColumnNotFound when it does not. *)
Theorem ColSelector_jointColumnTo_selects (p : ColSelectorPtr.t) (col : Column.t) :
  (selects (ColSelectorPtr.deref p) col ->
     ColSelector_jointColumnTo p col = (Some p, None))
  /\ (~ selects (ColSelectorPtr.deref p) col ->
      ColSelector_jointColumnTo p col = (None, Some ErrJointColumnNotFound)).
Proof. exact (ColSelector_jointColumnTo_spec p col). Qed.

Lemma ColSelector_jointColumnTo_err p col :
  (selects (ColSelectorPtr.deref p) col ->
     snd (ColSelector_jointColumnTo p col) = None)
  /\ (~ selects (ColSelectorPtr.deref p) col ->
      snd (ColSelector_jointColumnTo p col) = Some ErrJointColumnNotFound).
Proof.
  destruct (ColSelector_jointColumnTo_spec p col) as [Hy Hn].
  split; intros H; [rewrite (Hy H) | rewrite (Hn H)]; reflexivity.
Qed.

Lemma selects_dec sel col : Decision (selects sel col).
Proof. unfold selects. apply _. Qed.

Lemma CmpBoolExp_jointColumnTo_spec
    (op : CmpOperator.t) (l r : BoolExp) (col : Column.t) :
  (op <> CmpOperator.EQ ->
     jointColumnTo (CmpBoolExp op l r) col = (None, Some ErrJointColumnNotFound))
  /\ (as_ColSelector l = None \/ as_ColSelector r = None ->
      jointColumnTo (CmpBoolExp op l r) col
      = (None, Some ErrJointColumnNotFound))
  /\ (forall sl sr,
        op = CmpOperator.EQ -> l = ColSelectorExp sl -> r = ColSelectorExp sr ->
        (selects (ColSelectorPtr.deref sl) col ->
         selects (ColSelectorPtr.deref sr) col ->
         jointColumnTo (CmpBoolExp op l r) col
         = (None, Some ErrInvalidJointColumn))
        /\ (selects (ColSelectorPtr.deref sl) col ->
            ~ selects (ColSelectorPtr.deref sr) col ->
            jointColumnTo (CmpBoolExp op l r) col = (Some sr, None))
        /\ (~ selects (ColSelectorPtr.deref sl) col ->
            jointColumnTo (CmpBoolExp op l r) col = (Some sl, None))).
Proof.
  cbn [jointColumnTo]. unfold CmpBoolExp_jointColumnTo.
  split; [|split].
  - intros Hop. rewrite bool_decide_eq_true_2 by exact Hop. reflexivity.
  - intros Hsel. destruct (bool_decide (op <> CmpOperator.EQ)); [reflexivity|].
    destruct Hsel as [-> | Hr]; [reflexivity|].
    rewrite Hr. destruct (as_ColSelector l); reflexivity.
  - intros sl sr -> -> ->.
    rewrite bool_decide_eq_false_2 by (intros Hn; apply Hn; reflexivity).
    cbn [as_ColSelector].
    destruct (ColSelector_jointColumnTo_err sl col) as [Hly Hln].
    destruct (ColSelector_jointColumnTo_err sr col) as [Hry Hrn].
    split; [|split].
    + intros Hl Hr. rewrite (Hly Hl), (Hry Hr). reflexivity.
    + intros Hl Hr. rewrite (Hly Hl), (Hrn Hr). reflexivity.
    + intros Hl. rewrite (Hln Hl).
      destruct (selects_dec (ColSelectorPtr.deref sr) col) as [Hr|Hr];
        [rewrite (Hry Hr) | rewrite (Hrn Hr)]; reflexivity.
Qed.

(** [CmpBoolExp.jointColumnTo].  Anything but an equality of two
    selectors gives JointColumnNotFound.  For an equality of two
    selectors: both designate the column, InvalidJointColumn; the left one
    alone does, the right selector; the left one does not, the left
    selector, also when the right one does not either. *)
Theorem CmpBoolExp_jointColumnTo_cases
    (op : CmpOperator.t) (l r : BoolExp) (col : Column.t) :
  (op <> CmpOperator.EQ ->
     jointColumnTo (CmpBoolExp op l r) col = (None, Some ErrJointColumnNotFound))
  /\ (as_ColSelector l = None \/ as_ColSelector r = None ->
      jointColumnTo (CmpBoolExp op l r) col
      = (None, Some ErrJointColumnNotFound))
  /\ (forall sl sr,
        op = CmpOperator.EQ -> l = ColSelectorExp sl -> r = ColSelectorExp sr ->
        (selects (ColSelectorPtr.deref sl) col ->
         selects (ColSelectorPtr.deref sr) col ->
         jointColumnTo (CmpBoolExp op l r) col
         = (None, Some ErrInvalidJointColumn))
        /\ (selects (ColSelectorPtr.deref sl) col ->
            ~ selects (ColSelectorPtr.deref sr) col ->
            jointColumnTo (CmpBoolExp op l r) col = (Some sr, None))
        /\ (~ selects (ColSelectorPtr.deref sl) col ->
            jointColumnTo (CmpBoolExp op l r) col = (Some sl, None))).
Proof. exact (CmpBoolExp_jointColumnTo_spec op l r col). Qed.

(** Whatever the expression, [jointColumnTo] answers JointColumnNotFound,
    InvalidJointColumn, or, without error, one of the selectors of the
    expression: no other error, and never a selector along with an
    error. *)
Theorem jointColumnTo_answers (bexp : BoolExp) (col : Column.t) :
  jointColumnTo bexp col = (None, Some ErrJointColumnNotFound)
  \/ jointColumnTo bexp col = (None, Some ErrInvalidJointColumn)
  \/ exists p, jointColumnTo bexp col = (Some p, None) /\ selector_in p bexp.
Proof.
  induction bexp as [v|sel|exp IH|c pat|op l IHl r IHr|op l IHl r IHr|q].
  - left. reflexivity.
  - cbn [jointColumnTo selector_in].
    destruct (ColSelector_jointColumnTo_cases sel col) as [-> | ->]; eauto.
  - cbn [jointColumnTo selector_in]. exact IH.
  - left. reflexivity.
  - clear IHl IHr.
    destruct (CmpBoolExp_jointColumnTo_spec op l r col) as (Hop & Hsel & Heq).
    destruct (decide (op = CmpOperator.EQ)) as [Hop'|Hop']; [|auto].
    destruct l as [|sl| | | | |]; try (left; apply Hsel; left; reflexivity).
    destruct r as [|sr| | | | |]; try (left; apply Hsel; right; reflexivity).
    destruct (Heq sl sr Hop' eq_refl eq_refl) as (Hboth & Hleft & Hnot).
    destruct (selects_dec (ColSelectorPtr.deref sl) col) as [Hl|Hl].
    + destruct (selects_dec (ColSelectorPtr.deref sr) col) as [Hr|Hr].
      * right. left. auto.
      * right. right. exists sr. split; [auto|]. cbn. auto.
    + right. right. exists sl. split; [auto|]. cbn. auto.
  - rewrite jointColumnTo_BinBoolExp_left. cbn [selector_in].
    destruct IHl as [Hl | [Hl | (p & Hl & Hin)]]; [auto | auto |].
    right. right. exists p. auto.
  - left. reflexivity.
Qed.

(** The answer for a [BinBoolExp] depends neither on its right operand
    nor on its operator. *)
Theorem BinBoolExp_jointColumnTo_right_unused
    (op op' : LogicOperator.t) (l r r' : BoolExp) (col : Column.t) :
  jointColumnTo (BinBoolExp op l r) col = jointColumnTo (BinBoolExp op' l r') col.
Proof. rewrite !jointColumnTo_BinBoolExp_left. reflexivity. Qed.

(** ** [ColSelector.resolve] *)

(** A selector without alias and without database resolves to the name
    of the same column qualified by the implicit database, whatever the
    implicit database is when the qualified selector is resolved. *)
Theorem ColSelector_resolve_qualified
    (sel : ColSelector.t) (implicitDatabase other : string) :
  ColSelector.as_ sel = "" ->
  ColSelector.db sel = "" ->
  implicitDatabase <> "" ->
  ColSelector_resolve sel implicitDatabase
  = ColSelector_resolve
      (ColSelector.mk implicitDatabase (ColSelector.table sel)
         (ColSelector.col sel) "") other.
Proof.
  intros Has Hdb Himp. unfold ColSelector_resolve.
  cbn [ColSelector.as_ ColSelector.db ColSelector.table ColSelector.col].
  rewrite Has, Hdb.
  rewrite (bool_decide_eq_false_2 ("" <> "")) by (intros Hn; apply Hn; reflexivity).
  rewrite (bool_decide_eq_true_2 ("" = "")) by reflexivity.
  rewrite (bool_decide_eq_false_2 (implicitDatabase = "")) by exact Himp.
  reflexivity.
Qed.

(** ** [referencedTable], USE and CREATE INDEX *)

Lemma referencedTable_Ok_inv (stmt : TableRef.t) (e : option Engine)
    (table : Table.t) :
  referencedTable stmt e = Ok table
  <-> exists eng d,
        e = Some eng
        /\ implicitDatabase eng <> ""
        /\ Catalog.dbsByName (catalog eng) !! implicitDatabase eng = Some d
        /\ Database.tablesByName d !! TableRef.table stmt = Some table.
Proof.
  split.
  - destruct e as [eng|]; [|discriminate].
    destruct (decide (implicitDatabase eng = "")) as [Himp|Himp].
    + rewrite referencedTable_no_database by exact Himp. discriminate.
    + rewrite referencedTable_implicit by exact Himp.
      destruct (Catalog.dbsByName (catalog eng) !! implicitDatabase eng)
        as [d|] eqn:Hd; [|discriminate].
      destruct (Database.tablesByName d !! TableRef.table stmt)
        as [tb|] eqn:Htb; [|discriminate].
      intros Heq. inversion Heq; subst. exists eng, d. auto.
  - intros (eng & d & -> & Himp & Hd & Htb).
    rewrite referencedTable_implicit by exact Himp.
    rewrite Hd, Htb. reflexivity.
Qed.

(** [referencedTable] returns a table exactly when the engine has a
    selected database, the catalog holds it, and it holds a table of that
    name; the table returned is that one.  Neither [stmt.db] nor [stmt.as]
    enters. *)
Theorem referencedTable_Ok_iff (stmt : TableRef.t) (e : option Engine)
    (table : Table.t) :
  referencedTable stmt e = Ok table
  <-> exists eng d,
        e = Some eng
        /\ implicitDatabase eng <> ""
        /\ Catalog.dbsByName (catalog eng) !! implicitDatabase eng = Some d
        /\ Database.tablesByName d !! TableRef.table stmt = Some table.
Proof. exact (referencedTable_Ok_inv stmt e table). Qed.

(** USE of an unknown database fails with DatabaseDoesNotExist and
    leaves the engine as it was.  USE of a known database with a
    non-empty name returns no entry, changes nothing but the implicit
    database, and from then on table references are resolved in that
    database. *)
Theorem UseDatabaseStmt_CompileUsing_selects (db : string) (eng : Engine) :
  (Catalog.dbsByName (catalog eng) !! db = None ->
     UseDatabaseStmt_CompileUsing db (Some eng)
     = (Some eng, Err ErrDatabaseDoesNotExist))
  /\ (forall d,
        Catalog.dbsByName (catalog eng) !! db = Some d ->
        db <> "" ->
        exists eng',
          UseDatabaseStmt_CompileUsing db (Some eng) = (Some eng', Ok ([], []))
          /\ catalog eng' = catalog eng
          /\ prefix eng' = prefix eng
          /\ implicitDatabase eng' = db
          /\ forall stmt,
               referencedTable stmt (Some eng')
               = match Database.tablesByName d !! TableRef.table stmt with
                 | Some table => Ok table
                 | None => Err ErrTableDoesNotExist
                 end).
Proof.
  unfold UseDatabaseStmt_CompileUsing, Catalog.ExistDatabase.
  split.
  - intros Hnone. rewrite bool_decide_eq_false_2; [reflexivity|].
    rewrite Hnone. intros [x Hx]. discriminate.
  - intros d Hd Hne. rewrite bool_decide_eq_true_2 by (rewrite Hd; eauto).
    eexists. split; [reflexivity|].
    cbn [set_implicitDatabase catalog prefix implicitDatabase].
    repeat split.
    intros stmt. rewrite referencedTable_implicit by exact Hne.
    cbn [set_implicitDatabase catalog implicitDatabase]. rewrite Hd.
    reflexivity.
Qed.

(** What a CREATE INDEX that compiles has found and done. *)
Lemma CreateIndexStmt_CompileUsing_Ok table col eng e' out :
  CreateIndexStmt_CompileUsing table col (Some eng) = (e', Ok out) ->
  exists d tb c,
    implicitDatabase eng <> ""
    /\ Catalog.dbsByName (catalog eng) !! implicitDatabase eng = Some d
    /\ Database.tablesByName d !! table = Some tb
    /\ Column.colName (Table.pk tb) <> col
    /\ Table.colsByName tb !! col = Some c
    /\ (Column.id c ∉ Table.indexes tb)
    /\ e' = Some (set_catalog
                   (Catalog.mk
                      (<[implicitDatabase eng :=
                           Database.with_tables
                             (<[table := Table.with_indexes
                                           ({[Column.id c]} ∪ Table.indexes tb) tb]>
                                (Database.tablesByName d)) d]>
                         (Catalog.dbsByName (catalog eng)))) eng)
    /\ exists te, out = ([te], []).
Proof.
  unfold CreateIndexStmt_CompileUsing.
  case_bool_decide as Himp; [discriminate|].
  destruct (Catalog.dbsByName (catalog eng) !! implicitDatabase eng)
    as [d|] eqn:Hd; [|discriminate].
  destruct (Database.tablesByName d !! table) as [tb|] eqn:Htb; [|discriminate].
  case_bool_decide as Hpk; [discriminate|].
  destruct (Table.colsByName tb !! col) as [c|] eqn:Hc; [|discriminate].
  case_bool_decide as Hin; [discriminate|].
  intros Heq. inversion Heq; subst; clear Heq.
  exists d, tb, c. repeat split; auto. eexists. reflexivity.
Qed.

(** A second CREATE INDEX on the same column, on the engine that the
    first one has left, fails with IndexAlreadyExists and changes
    nothing. *)
Theorem CreateIndexStmt_CompileUsing_twice
    (table col : string) (eng : Engine) (e' : option Engine) (out : KVs) :
  CreateIndexStmt_CompileUsing table col (Some eng) = (e', Ok out) ->
  CreateIndexStmt_CompileUsing table col e' = (e', Err ErrIndexAlreadyExists).
Proof.
  intros H.
  apply CreateIndexStmt_CompileUsing_Ok in H
    as (d & tb & c & Himp & Hd & Htb & Hpk & Hc & Hin & -> & _).
  unfold CreateIndexStmt_CompileUsing.
  cbn [set_catalog implicitDatabase catalog Catalog.dbsByName].
  rewrite bool_decide_eq_false_2 by exact Himp.
  rewrite lookup_insert_eq.
  cbn [Database.with_tables Database.tablesByName].
  rewrite lookup_insert_eq.
  cbn [Table.with_indexes Table.pk Table.colsByName Table.indexes].
  rewrite bool_decide_eq_false_2 by exact Hpk.
  rewrite Hc.
  rewrite bool_decide_eq_true_2 by set_solver.
  reflexivity.
Qed.

(** After a CREATE INDEX on a column of [table] has compiled, a SELECT
    from [table] ordered by that column compiles, with no entry. *)
Theorem CreateIndexStmt_then_order_by
    (table col : string) (eng : Engine) (e' : option Engine) (out : KVs)
    (stmt : SelectStmt) (tr : TableRef.t) (oc : OrdCol.t) (sel : ColSelector.t) :
  CreateIndexStmt_CompileUsing table col (Some eng) = (e', Ok out) ->
  SelectStmt_ds stmt = DSTableRef tr ->
  TableRef.table tr = table ->
  SelectStmt_orderBy stmt = [oc] ->
  OrdCol.sel oc = Some sel ->
  ColSelector.col sel = col ->
  SelectStmt_CompileUsing stmt e' = Ok ([], []).
Proof.
  intros H Hds Htr Hob Hsel Hcol.
  apply CreateIndexStmt_CompileUsing_Ok in H
    as (d & tb & c & Himp & Hd & Htb & Hpk & Hc & Hin & -> & _).
  unfold SelectStmt_CompileUsing. rewrite Hob, Hds.
  rewrite (bool_decide_eq_false_2 (1 < length [oc])%nat) by (cbn; lia).
  rewrite (bool_decide_eq_true_2 (0 < length [oc])%nat) by (cbn; lia).
  rewrite referencedTable_implicit by exact Himp.
  cbn [set_catalog implicitDatabase catalog Catalog.dbsByName].
  rewrite lookup_insert_eq.
  cbn [Database.with_tables Database.tablesByName].
  rewrite Htr, lookup_insert_eq.
  cbn [mbind result_bind]. change (index [oc] 0%nat) with (Ok oc).
  cbn [mbind result_bind]. rewrite Hsel, Hcol.
  cbn [Table.with_indexes Table.pk Table.colsByName Table.indexes].
  rewrite Hc.
  case_bool_decide; [reflexivity|].
  rewrite bool_decide_eq_true_2 by set_solver. reflexivity.
Qed.

(** ** The map of [Validate] *)

Lemma Validate_loop_lookup table cols : forall i b sel b' sel',
  Validate_loop table cols i b sel = Ok (b', sel') ->
  (forall j c, cols !! j = Some c ->
     exists col, Table.colsByName table !! c = Some col
                 /\ sel' !! Column.id col = Some (i + j)%nat)
  /\ size sel' = (size sel + length cols)%nat
  /\ (forall k v, sel !! k = Some v -> sel' !! k = Some v).
Proof.
  induction cols as [|c rest IH]; intros i b sel b' sel' H;
    cbn [Validate_loop] in H.
  - inversion H; subst. split; [|split; [cbn; lia | auto]].
    intros j c Hj. rewrite lookup_nil in Hj. discriminate.
  - destruct (Table.colsByName table !! c) as [col|] eqn:Hcol; [|discriminate].
    destruct (sel !! Column.id col) eqn:Hsel; [discriminate|].
    apply IH in H as (Hpos & Hsize & Hkeep).
    split; [|split].
    + intros [|j] c' Hj; cbn in Hj.
      * inversion Hj; subst. exists col. split; [exact Hcol|].
        rewrite Nat.add_0_r. apply Hkeep. apply lookup_insert_eq.
      * destruct (Hpos j c' Hj) as (col' & Hcol' & Hl).
        exists col'. split; [exact Hcol'|].
        replace (i + S j)%nat with (S i + j)%nat by lia. exact Hl.
    + rewrite Hsize, map_size_insert_None by exact Hsel. cbn. lia.
    + intros k v Hk. apply Hkeep.
      rewrite lookup_insert_ne; [exact Hk|].
      intros Heq. rewrite Heq, Hk in Hsel. discriminate.
Qed.

Lemma Validate_Ok_inv (cols : list string) (table : Table.t)
    (cs : gmap N nat) :
  Validate cols table = Ok cs ->
  Column.colName (Table.pk table) ∈ cols
  /\ NoDup cols
  /\ size cs = length cols
  /\ forall j c, cols !! j = Some c ->
       exists col, Table.colsByName table !! c = Some col
                   /\ cs !! Column.id col = Some j.
Proof.
  unfold Validate.
  destruct (Validate_loop table cols 0%nat false ∅) as [[b sel]| |] eqn:Hloop;
    try discriminate.
  cbn [mbind result_bind].
  destruct b; [|discriminate]. cbn [negb]. intros Hcs. inversion Hcs; subst.
  pose proof (Validate_loop_pkIncluded _ _ _ _ _ _ _ Hloop) as Hpk.
  cbn [orb] in Hpk. symmetry in Hpk. apply bool_decide_eq_true_1 in Hpk.
  destruct (Validate_loop_lookup _ _ _ _ _ _ _ Hloop) as (Hpos & Hsize & _).
  rewrite map_size_empty in Hsize.
  split; [exact Hpk|]. split; [|split; [exact Hsize | exact Hpos]].
  apply NoDup_alt. intros i j c Hi Hj.
  destruct (Hpos i c Hi) as (col & Hcol & Hli).
  destruct (Hpos j c Hj) as (col' & Hcol' & Hlj).
  rewrite Hcol in Hcol'. inversion Hcol'; subst.
  rewrite Hli in Hlj. inversion Hlj. reflexivity.
Qed.

(** A validation that succeeds has seen the primary key among the listed
    names and no name twice; its map has one entry per listed name and
    sends the id of the column of the [j]-th name to [j]. *)
Theorem Validate_Ok_map (cols : list string) (table : Table.t)
    (cs : gmap N nat) :
  Validate cols table = Ok cs ->
  Column.colName (Table.pk table) ∈ cols
  /\ NoDup cols
  /\ size cs = length cols
  /\ forall j c, cols !! j = Some c ->
       exists col, Table.colsByName table !! c = Some col
                   /\ cs !! Column.id col = Some j.
Proof. exact (Validate_Ok_inv cols table cs). Qed.

(** ** Further properties that hold for every codec, reader and loop order *)

Section Coverage.

Variable Snapshot : Type.
Variable RowReader : Type.
Variable encodeValue : Value.t -> SQLValueType -> bool -> result (list byte).
Variable maxKeyVal : SQLValueType -> list byte.
Variable newRawRowReader :
  Engine -> Snapshot -> Table.t -> string -> Comparison -> list byte ->
  result RowReader.
Variable newJointRowReader :
  option Engine -> option Snapshot -> RowReader -> list JoinSpec ->
  result RowReader.
Variable mapRange : gmap N Column.t -> list (N * Column.t).
Variable setRange : nat -> gset N -> list N.
Hypothesis mapRange_perm : forall m, mapRange m ≡ₚ map_to_list m.
Hypothesis setRange_perm : forall n s, setRange n s ≡ₚ elements s.

#[local] Set Default Proof Using "Type".

Local Abbreviation compile := (CompileUsing encodeValue mapRange setRange).
Local Abbreviation tx_loop := (Tx_loop encodeValue mapRange setRange).
Local Abbreviation resolve_table :=
  (TableRef_Resolve Snapshot RowReader maxKeyVal newRawRowReader).
Local Abbreviation resolve_select :=
  (SelectStmt_Resolve Snapshot RowReader maxKeyVal newRawRowReader
     newJointRowReader).
Local Abbreviation compile_upsert :=
  (UpsertIntoStmt_CompileUsing encodeValue setRange).

(** *** [RowSpec.Bytes] *)

Lemma Bytes_loop_layout t cols vals : forall i buf bs,
  Bytes_loop encodeValue t cols i vals buf = Ok bs ->
  exists chunks,
    bs = buf ++ concat chunks
    /\ length chunks = length vals
    /\ forall k val, vals !! k = Some val ->
         exists c col valb,
           cols !! (i + k)%nat = Some c
           /\ Table.colsByName t !! c = Some col
           /\ encodeValue val (Column.colType col) false = Ok valb
           /\ chunks !! k
              = Some (PutUint32 (len (Column.colName col))
                      ++ bytes_of (Column.colName col) ++ valb).
Proof.
  induction vals as [|val rest IH]; intros i buf bs H; cbn [Bytes_loop] in H.
  - inversion H; subst. exists []. cbn [concat]. rewrite app_nil_r.
    split; [reflexivity|]. split; [reflexivity|].
    intros k v Hk. rewrite lookup_nil in Hk. discriminate.
  - destruct (index cols i) as [c| |] eqn:Hc; try discriminate.
    cbn [mbind result_bind] in H. apply index_Ok in Hc.
    destruct (Table.colsByName t !! c) as [col|] eqn:Hcol; [|discriminate].
    change (negb asKey) with false in H.
    destruct (encodeValue val (Column.colType col) false) as [valb| |] eqn:Henc;
      try discriminate.
    cbn [mbind result_bind] in H.
    apply IH in H as (chunks & -> & Hlen & Hall).
    exists ((PutUint32 (len (Column.colName col))
             ++ bytes_of (Column.colName col) ++ valb) :: chunks).
    split; [cbn [concat]; rewrite <- !app_assoc; reflexivity|].
    split; [cbn; lia|].
    intros [|k] v Hk; cbn in Hk.
    + inversion Hk; subst. exists c, col, valb.
      rewrite Nat.add_0_r. auto.
    + destruct (Hall k v Hk) as (c' & col' & valb' & Hc' & Hr).
      exists c', col', valb'.
      replace (i + S k)%nat with (S i + k)%nat by lia. auto.
Qed.

(** The payload of a row: the number of listed columns on four bytes,
    then for each value, in order, the length of the name of its column
    on four bytes, the name, and the value encoded as a payload; the
    [k]-th value goes with the [k]-th listed column, so there are no more
    values than listed columns.  The count at the head is that of the
    listed columns even when the row has fewer values. *)
Theorem Bytes_layout (r : RowSpec.t) (t : Table.t) (cols : list string)
    (bs : list byte) :
  Bytes encodeValue r t cols = Ok bs ->
  (length (RowSpec.Values r) <= length cols)%nat
  /\ exists chunks,
       bs = PutUint32 (N.of_nat (length cols)) ++ concat chunks
       /\ length chunks = length (RowSpec.Values r)
       /\ forall k val, RowSpec.Values r !! k = Some val ->
            exists c col valb,
              cols !! k = Some c
              /\ Table.colsByName t !! c = Some col
              /\ encodeValue val (Column.colType col) false = Ok valb
              /\ chunks !! k
                 = Some (PutUint32 (len (Column.colName col))
                         ++ bytes_of (Column.colName col) ++ valb).
Proof.
  unfold Bytes. intros H.
  apply Bytes_loop_layout in H as (chunks & -> & Hlen & Hall).
  split.
  - destruct (RowSpec.Values r) as [|v vs] eqn:Hv; [cbn; lia|].
    destruct (lookup_lt_is_Some_2 (v :: vs) (length vs)) as [val Hval];
      [cbn; lia|].
    destruct (Hall _ _ Hval) as (c & _ & _ & Hc & _).
    apply lookup_lt_Some in Hc. cbn in *. lia.
  - exists chunks. split; [reflexivity|]. split; [exact Hlen|]. exact Hall.
Qed.

(** *** [TableRef.Resolve] *)

Lemma TableRef_Resolve_nil_args (stmt : TableRef.t) (e : option Engine)
    (snap : option Snapshot) (ordCol : option OrdCol.t) :
  e = None \/ snap = None
  \/ (exists oc, ordCol = Some oc /\ OrdCol.sel oc = None) ->
  resolve_table stmt e snap ordCol = Err ErrIllegalArguments.
Proof.
  unfold TableRef_Resolve.
  intros [-> | [-> | (oc & -> & Hsel)]].
  - reflexivity.
  - destruct e; reflexivity.
  - destruct e; [|reflexivity]. destruct snap; [|reflexivity].
    rewrite bool_decide_eq_true_2; [reflexivity|].
    split; [discriminate | exact Hsel].
Qed.

(** A [nil] engine, a [nil] snapshot or an ordering column without
    selector: IllegalArguments. *)
Theorem TableRef_Resolve_illegal (stmt : TableRef.t) (e : option Engine)
    (snap : option Snapshot) (ordCol : option OrdCol.t) :
  e = None \/ snap = None
  \/ (exists oc, ordCol = Some oc /\ OrdCol.sel oc = None) ->
  resolve_table stmt e snap ordCol = Err ErrIllegalArguments.
Proof. exact (TableRef_Resolve_nil_args stmt e snap ordCol). Qed.

(** The errors of an ordering column on a table that [referencedTable]
    finds, in the order of the checks: a database or a table other than
    that of the table, InvalidColumn; a name that is no column,
    ColumnDoesNotExist; a column that is neither the primary key nor
    indexed, ColumnNotIndexed. *)
Theorem TableRef_Resolve_column_errors
    (stmt : TableRef.t) (eng : Engine) (sn : Snapshot) (oc : OrdCol.t)
    (sel : ColSelector.t) (table : Table.t) :
  referencedTable stmt (Some eng) = Ok table ->
  OrdCol.sel oc = Some sel ->
  let db_fits := ColSelector.db sel = ""
                 \/ ColSelector.db sel = DbRef.name (Table.db table) in
  let table_fits := ColSelector.table sel = ""
                    \/ ColSelector.table sel = Table.name table in
  (~ db_fits ->
     resolve_table stmt (Some eng) (Some sn) (Some oc) = Err ErrInvalidColumn)
  /\ (~ table_fits ->
      resolve_table stmt (Some eng) (Some sn) (Some oc) = Err ErrInvalidColumn)
  /\ (db_fits -> table_fits ->
      Table.colsByName table !! ColSelector.col sel = None ->
      resolve_table stmt (Some eng) (Some sn) (Some oc)
      = Err ErrColumnDoesNotExist)
  /\ (db_fits -> table_fits ->
      forall col,
        Table.colsByName table !! ColSelector.col sel = Some col ->
        Column.colName (Table.pk table) <> ColSelector.col sel ->
        Column.id col ∉ Table.indexes table ->
        resolve_table stmt (Some eng) (Some sn) (Some oc)
        = Err ErrColumnNotIndexed).
Proof.
  intros Htab Hsel db_fits table_fits.
  unfold TableRef_Resolve.
  rewrite bool_decide_eq_false_2
    by (cbn; rewrite Hsel; intros [_ ?]; discriminate).
  rewrite Htab. cbn [mbind result_bind]. rewrite Hsel.
  assert (bool_decide (ColSelector.db sel <> "")
          && bool_decide (ColSelector.db sel <> DbRef.name (Table.db table))
          = bool_decide (~ db_fits)) as ->.
  { subst db_fits.
    destruct (decide (ColSelector.db sel = ""));
      destruct (decide (ColSelector.db sel = DbRef.name (Table.db table)));
      repeat match goal with
             | |- context [bool_decide ?P] =>
                 first [ rewrite (bool_decide_eq_true_2 P) by (intros [?|?]; congruence)
                       | rewrite (bool_decide_eq_true_2 P) by congruence
                       | rewrite (bool_decide_eq_false_2 P) by (intros Hn; apply Hn; auto) ]
             end; reflexivity. }
  assert (bool_decide (ColSelector.table sel <> "")
          && bool_decide (ColSelector.table sel <> Table.name table)
          = bool_decide (~ table_fits)) as ->.
  { subst table_fits.
    destruct (decide (ColSelector.table sel = ""));
      destruct (decide (ColSelector.table sel = Table.name table));
      repeat match goal with
             | |- context [bool_decide ?P] =>
                 first [ rewrite (bool_decide_eq_true_2 P) by (intros [?|?]; congruence)
                       | rewrite (bool_decide_eq_true_2 P) by congruence
                       | rewrite (bool_decide_eq_false_2 P) by (intros Hn; apply Hn; auto) ]
             end; reflexivity. }
  split; [|split; [|split]].
  - intros Hdb. rewrite bool_decide_eq_true_2 by exact Hdb. reflexivity.
  - intros Htb. destruct (bool_decide (~ db_fits)); [reflexivity|].
    rewrite bool_decide_eq_true_2 by exact Htb. reflexivity.
  - intros Hdb Htb Hcol.
    rewrite (bool_decide_eq_false_2 (~ db_fits)) by (intros Hn; exact (Hn Hdb)).
    rewrite (bool_decide_eq_false_2 (~ table_fits))
      by (intros Hn; exact (Hn Htb)).
    rewrite Hcol. reflexivity.
  - intros Hdb Htb col Hcol Hpk Hix.
    rewrite (bool_decide_eq_false_2 (~ db_fits)) by (intros Hn; exact (Hn Hdb)).
    rewrite (bool_decide_eq_false_2 (~ table_fits))
      by (intros Hn; exact (Hn Htb)).
    rewrite Hcol.
    rewrite (bool_decide_eq_true_2 (_ <> _)) by exact Hpk.
    rewrite (bool_decide_eq_false_2 (_ ∈ _)) by exact Hix.
    reflexivity.
Qed.

(** Scans of the primary key.  Without ordering column the reader scans
    the primary key upwards from the empty key.  An ordering column that
    names the primary key, without database or table, passes every check
    of [Resolve]: the reader scans the primary key with the comparison of
    the ordering column. *)
Theorem TableRef_Resolve_primary_key
    (stmt : TableRef.t) (eng : Engine) (sn : Snapshot) (table : Table.t) :
  referencedTable stmt (Some eng) = Ok table ->
  resolve_table stmt (Some eng) (Some sn) None
  = newRawRowReader eng sn table (Column.colName (Table.pk table))
      GreaterOrEqualTo []
  /\ (pk_by_name table ->
      forall cmp key useKey,
        resolve_table stmt (Some eng) (Some sn)
          (Some (OrdCol.mk
                   (Some (ColSelector.mk "" ""
                            (Column.colName (Table.pk table)) ""))
                   cmp key useKey))
        = newRawRowReader eng sn table (Column.colName (Table.pk table)) cmp
            (if useKey then key
             else match cmp with
                  | LowerThan | LowerOrEqualTo =>
                      maxKeyVal (Column.colType (Table.pk table))
                  | _ => []
                  end)).
Proof.
  intros Htab. split.
  - unfold TableRef_Resolve.
    rewrite bool_decide_eq_false_2 by (intros [Hn _]; apply Hn; reflexivity).
    rewrite Htab. reflexivity.
  - intros Hpk cmp key useKey.
    rewrite (TableRef_Resolve_ordered Snapshot RowReader maxKeyVal
               newRawRowReader stmt eng sn
               (OrdCol.mk
                  (Some (ColSelector.mk "" ""
                           (Column.colName (Table.pk table)) ""))
                  cmp key useKey)
               (ColSelector.mk "" "" (Column.colName (Table.pk table)) "")
               table (Table.pk table)
               Htab eq_refl (or_introl eq_refl) (or_introl eq_refl) Hpk
               (or_introl eq_refl)).
    reflexivity.
Qed.

(** *** [SelectStmt.Resolve] *)

(** With a [nil] engine or a [nil] snapshot no SELECT resolves to a
    reader, however its sources are nested. *)
Theorem SelectStmt_Resolve_nil (stmt : SelectStmt) (e : option Engine)
    (snap : option Snapshot) (ordCol : option OrdCol.t) :
  e = None \/ snap = None ->
  is_Ok (resolve_select stmt e snap ordCol) = false.
Proof.
  intros Hnil. revert stmt ordCol.
  fix IH 1. intros stmt ordCol.
  destruct stmt as [distinct sels ds joins wh gb hv lim ob alias].
  cbn [SelectStmt_Resolve].
  destruct ordCol as [oc|]; [reflexivity|].
  destruct (SelectStmt_CompileUsing _ e) as [kvs| |]; try reflexivity.
  cbn [mbind result_bind].
  destruct ds as [t|s].
  - rewrite TableRef_Resolve_nil_args; [reflexivity|].
    destruct Hnil as [H|H]; auto.
  - specialize (IH s (if bool_decide (0 < length ob)%nat
                      then ob !! 0%nat else None)).
    destruct (SelectStmt_Resolve _ _ _ _ _ s e snap _) as [rr| |];
      [discriminate | reflexivity | reflexivity].
Qed.

(** The reader of a SELECT depends on the source, the joins and the
    ordering of the statement only: two statements that differ in
    anything else, the conditions of WHERE and HAVING among them, resolve
    alike. *)
Theorem SelectStmt_Resolve_ignores_conditions
    (ds : DataSource) (joins : option (list JoinSpec)) (orderBy : list OrdCol.t)
    distinct selectors where_ groupBy having limit as_
    distinct' selectors' where_' groupBy' having' limit' as_'
    (e : option Engine) (snap : option Snapshot) (ordCol : option OrdCol.t) :
  resolve_select
    (mkSelectStmt distinct selectors ds joins where_ groupBy having limit
       orderBy as_) e snap ordCol
  = resolve_select
      (mkSelectStmt distinct' selectors' ds joins where_' groupBy' having'
         limit' orderBy as_') e snap ordCol.
Proof. reflexivity. Qed.

(** SELECT from a table, ordered downwards by an indexed column and
    without start key: the reader of the statement is the scan of that
    column that starts at [maxKeyVal] of its type. *)
Theorem SelectStmt_Resolve_descending
    (stmt : SelectStmt) (tr : TableRef.t) (oc : OrdCol.t) (sel : ColSelector.t)
    (eng : Engine) (sn : Snapshot) (table : Table.t) (col : Column.t) :
  SelectStmt_ds stmt = DSTableRef tr ->
  SelectStmt_joins stmt = None ->
  SelectStmt_orderBy stmt = [oc] ->
  OrdCol.sel oc = Some sel ->
  OrdCol.useInitKeyVal oc = false ->
  OrdCol.cmp oc = LowerThan \/ OrdCol.cmp oc = LowerOrEqualTo ->
  referencedTable tr (Some eng) = Ok table ->
  ColSelector.db sel = "" \/ ColSelector.db sel = DbRef.name (Table.db table) ->
  ColSelector.table sel = "" \/ ColSelector.table sel = Table.name table ->
  Table.colsByName table !! ColSelector.col sel = Some col ->
  Column.id col ∈ Table.indexes table ->
  resolve_select stmt (Some eng) (Some sn) None
  = newRawRowReader eng sn table (Column.colName col) (OrdCol.cmp oc)
      (maxKeyVal (Column.colType col)).
Proof.
  intros Hds Hjoins Hob Hsel Huse Hcmp Htab Hdb Htb Hcol Hix.
  destruct stmt as [distinct sels ds joins wh gb hv lim ob alias].
  cbn [SelectStmt_ds SelectStmt_joins SelectStmt_orderBy] in Hds, Hjoins, Hob.
  subst ds joins ob.
  cbn [SelectStmt_Resolve].
  assert (SelectStmt_CompileUsing
            (mkSelectStmt distinct sels (DSTableRef tr) None wh gb hv lim
               [oc] alias) (Some eng) = Ok ([], [])) as ->.
  { unfold SelectStmt_CompileUsing.
    cbn [SelectStmt_orderBy SelectStmt_ds].
    rewrite (bool_decide_eq_false_2 (1 < length [oc])%nat) by (cbn; lia).
    rewrite (bool_decide_eq_true_2 (0 < length [oc])%nat) by (cbn; lia).
    rewrite Htab. cbn [mbind result_bind].
    change (index [oc] 0%nat) with (Ok oc). cbn [mbind result_bind].
    rewrite Hsel, Hcol.
    case_bool_decide; [reflexivity|].
    rewrite bool_decide_eq_true_2 by exact Hix. reflexivity. }
  cbn [mbind result_bind].
  rewrite (bool_decide_eq_true_2 (0 < length [oc])%nat) by (cbn; lia).
  change ([oc] !! 0%nat) with (Some oc).
  rewrite (TableRef_Resolve_ordered Snapshot RowReader maxKeyVal
             newRawRowReader tr eng sn oc sel table col
             Htab Hsel Hdb Htb Hcol (or_intror Hix)).
  rewrite Huse.
  destruct (newRawRowReader eng sn table (Column.colName col) (OrdCol.cmp oc) _)
    eqn:Hr; destruct Hcmp as [Hc | Hc]; rewrite Hc in *; rewrite Hr;
    reflexivity.
Qed.

(** *** [CompileUsing] and the engine *)

(** Induction on statements, with the statements of a transaction. *)
Lemma SQLStmt_nested_ind (P : SQLStmt -> Prop) :
  (forall stmts, Forall P stmts -> P (TxStmt stmts)) ->
  (forall stmt, (forall stmts, stmt <> TxStmt stmts) -> P stmt) ->
  forall stmt, P stmt.
Proof.
  intros HTx Hother. fix IH 1. intros stmt.
  destruct stmt as [stmts| | | | | | | |];
    try (apply Hother; intros ? ?; discriminate).
  apply HTx. revert stmts. fix IHl 1. intros [|s rest].
  - constructor.
  - constructor; [apply IH | apply IHl].
Qed.

Lemma isDDL_TxStmt_false stmts :
  isDDL (TxStmt stmts) = false -> Forall (fun s => isDDL s = false) stmts.
Proof.
  cbn [isDDL]. induction stmts as [|s rest IH]; intros H; [constructor|].
  destruct (isDDL s) eqn:Hs; [discriminate|]. constructor; auto.
Qed.

(** What one statement other than a transaction does to the engine. *)
Lemma CompileUsing_single stmt e e' r :
  (forall stmts, stmt <> TxStmt stmts) ->
  compile stmt e = (e', r) ->
  prefix <$> e' = prefix <$> e
  /\ (is_Ok r = false -> e' = e)
  /\ (isDDL stmt = false ->
      catalog <$> e' = catalog <$> e
      /\ forall ces des, r = Ok (ces, des) -> ces = []).
Proof.
  intros Hntx H.
  destruct stmt as [stmts|db|db|since upTo|table colsSpec pk|table col
                   |table colSpec|tableRef cols rows|s];
    cbn [CompileUsing isDDL] in *.
  - exfalso. exact (Hntx stmts eq_refl).
  - unfold CreateDatabaseStmt_CompileUsing in H.
    repeat case_match; simplify_eq; cbn; repeat split; try discriminate; auto.
  - unfold UseDatabaseStmt_CompileUsing in H.
    repeat case_match; simplify_eq; cbn; repeat split; try discriminate; auto;
      intros; simplify_eq; reflexivity.
  - unfold UseSnapshotStmt_CompileUsing in H. simplify_eq.
    repeat split; auto; discriminate.
  - unfold CreateTableStmt_CompileUsing in H.
    repeat case_match; simplify_eq; cbn; repeat split; try discriminate; auto.
  - unfold CreateIndexStmt_CompileUsing in H.
    repeat case_match; simplify_eq; cbn; repeat split; try discriminate; auto.
  - unfold AddColumnStmt_CompileUsing in H. simplify_eq.
    repeat split; auto; discriminate.
  - injection H as <- <-. repeat split; auto.
    intros ces des Hr. unfold UpsertIntoStmt_CompileUsing in Hr.
    destruct (referencedTable tableRef e) as [tb| |]; try discriminate.
    cbn [mbind result_bind] in Hr.
    destruct (Validate cols tb); try discriminate.
    cbn [mbind result_bind] in Hr.
    destruct e; [|discriminate].
    destruct (Upsert_rows _ _ _ _ _ _ _ _ _); try discriminate.
    cbn [mbind result_bind] in Hr. congruence.
  - injection H as <- <-. repeat split; auto.
    intros ces des Hr. unfold SelectStmt_CompileUsing in Hr.
    repeat case_match; simplify_eq;
      try reflexivity;
      repeat match goal with
             | H : _ ≫= _ = Ok _ |- _ =>
                 unfold mbind, result_bind in H; repeat case_match; simplify_eq
             end; reflexivity.
Qed.

Lemma Tx_loop_app pre rest : forall e ces des,
  tx_loop (pre ++ rest) e ces des
  = match tx_loop pre e ces des with
    | (e1, Ok (ces1, des1)) => tx_loop rest e1 ces1 des1
    | other => other
    end.
Proof.
  induction pre as [|s pre IH]; intros e ces des; [reflexivity|].
  cbn [app Tx_loop].
  destruct (compile s e) as [e1 [[cs ds]|err|]]; auto.
Qed.

Lemma Tx_loop_effect stmts :
  Forall (fun s => forall e e' r,
            compile s e = (e', r) ->
            prefix <$> e' = prefix <$> e
            /\ (isDDL s = false ->
                catalog <$> e' = catalog <$> e
                /\ forall ces des, r = Ok (ces, des) -> ces = [])) stmts ->
  forall e ces des e' r,
    tx_loop stmts e ces des = (e', r) ->
    prefix <$> e' = prefix <$> e
    /\ (Forall (fun s => isDDL s = false) stmts ->
        catalog <$> e' = catalog <$> e
        /\ forall ces' des', r = Ok (ces', des') -> ces' = ces).
Proof.
  induction 1 as [|s rest Hs _ IH]; intros e ces des e' r H; cbn [Tx_loop] in H.
  - injection H as <- <-. split; [reflexivity|]. intros _.
    split; [reflexivity|]. intros ces' des' Hr. congruence.
  - destruct (compile s e) as [e1 r1] eqn:Hc.
    destruct (Hs e e1 r1 Hc) as [Hp Hn].
    destruct r1 as [[cs ds]|err|].
    + apply IH in H as [Hp' Hn']. split; [congruence|].
      intros Hall. inversion Hall as [|? ? Hs0 Hrest]; subst.
      destruct (Hn Hs0) as [Hcat Hces]. destruct (Hn' Hrest) as [Hcat' Hces'].
      split; [congruence|].
      intros ces' des' Hr. rewrite (Hces' _ _ Hr), (Hces cs ds eq_refl).
      apply app_nil_r.
    + injection H as <- <-. split; [exact Hp|]. intros Hall.
      inversion Hall as [|? ? Hs0 Hrest]; subst.
      destruct (Hn Hs0) as [Hcat _]. split; [exact Hcat | discriminate].
    + injection H as <- <-. split; [exact Hp|]. intros Hall.
      inversion Hall as [|? ? Hs0 Hrest]; subst.
      destruct (Hn Hs0) as [Hcat _]. split; [exact Hcat | discriminate].
Qed.

Lemma CompileUsing_effect stmt : forall e e' r,
  compile stmt e = (e', r) ->
  prefix <$> e' = prefix <$> e
  /\ (isDDL stmt = false ->
      catalog <$> e' = catalog <$> e
      /\ forall ces des, r = Ok (ces, des) -> ces = []).
Proof.
  induction stmt as [stmts IH | stmt Hntx] using SQLStmt_nested_ind;
    intros e e' r H.
  - rewrite (CompileUsing_TxStmt encodeValue mapRange setRange) in H.
    destruct (Tx_loop_effect stmts IH _ _ _ _ _ H) as [Hp Hn].
    split; [exact Hp|]. intros Hddl. apply Hn.
    apply isDDL_TxStmt_false. exact Hddl.
  - destruct (CompileUsing_single stmt e e' r Hntx H) as (Hp & _ & Hn). auto.
Qed.

(** No statement changes the key prefix of the engine. *)
Theorem CompileUsing_keeps_prefix (stmt : SQLStmt) (e : option Engine) :
  prefix <$> fst (compile stmt e) = prefix <$> e.
Proof.
  destruct (compile stmt e) as [e' r] eqn:H.
  exact (proj1 (CompileUsing_effect stmt e e' r H)).
Qed.

(** A statement whose [isDDL] is [false], a transaction of such
    statements included, leaves the catalog as it was, whether it
    compiles or not, and returns no catalog entry. *)
Theorem CompileUsing_not_DDL (stmt : SQLStmt) (e : option Engine) :
  isDDL stmt = false ->
  catalog <$> fst (compile stmt e) = catalog <$> e
  /\ forall ces des, snd (compile stmt e) = Ok (ces, des) -> ces = [].
Proof.
  intros Hddl. destruct (compile stmt e) as [e' r] eqn:H.
  exact (proj2 (CompileUsing_effect stmt e e' r H) Hddl).
Qed.

(** A statement that fails leaves the engine as it was, unless it is a
    transaction. *)
Theorem CompileUsing_failure_keeps_engine (stmt : SQLStmt) (e : option Engine) :
  (forall stmts, stmt <> TxStmt stmts) ->
  is_Ok (snd (compile stmt e)) = false ->
  fst (compile stmt e) = e.
Proof.
  intros Hntx Hfail. destruct (compile stmt e) as [e' r] eqn:H.
  exact (proj1 (proj2 (CompileUsing_single stmt e e' r Hntx H)) Hfail).
Qed.

(** A transaction that fails is not undone: when the statements [pre]
    compile and leave the engine [e1], and the next statement fails on
    [e1] leaving [e2], the transaction fails with that error and leaves
    [e2]; the statements after the failing one are not compiled. *)
Theorem TxStmt_failure_keeps_effects
    (pre post : list SQLStmt) (s : SQLStmt) (e e1 e2 : option Engine)
    (out : KVs) (err : error) :
  compile (TxStmt pre) e = (e1, Ok out) ->
  compile s e1 = (e2, Err err) ->
  compile (TxStmt (pre ++ s :: post)) e = (e2, Err err).
Proof using Type.
  rewrite !(CompileUsing_TxStmt encodeValue mapRange setRange).
  intros Hpre Hs. rewrite Tx_loop_app, Hpre. destruct out as [ces des].
  cbn [Tx_loop]. rewrite Hs. reflexivity.
Qed.

(** *** UPSERT never indexes out of range *)

Lemma Bytes_loop_no_panic t cols vals : forall i buf,
  (forall v ty k, encodeValue v ty k <> Panic) ->
  (forall c, c ∈ cols -> is_Some (Table.colsByName t !! c)) ->
  (i + length vals <= length cols)%nat ->
  Bytes_loop encodeValue t cols i vals buf <> Panic.
Proof.
  induction vals as [|val rest IH]; intros i buf Henc Hknown Hlen;
    cbn [Bytes_loop]; [discriminate|].
  cbn [length] in Hlen.
  destruct (lookup_lt_is_Some_2 cols i) as [c Hc]; [lia|].
  unfold index. rewrite Hc. cbn [mbind result_bind].
  destruct (Hknown c) as [col Hcol];
    [apply list_elem_of_lookup; eauto|].
  rewrite Hcol.
  pose proof (Henc val (Column.colType col) (negb asKey)) as Hv.
  destruct (encodeValue val (Column.colType col) (negb asKey)) as [valb| |];
    cbn [mbind result_bind]; [|discriminate|contradiction].
  apply IH; [exact Henc | exact Hknown | lia].
Qed.

Lemma indexEntries_no_panic e table cs row pkEncVal colIDs : forall des,
  (forall v ty k, encodeValue v ty k <> Panic) ->
  (forall k, (sel_at cs k < length (RowSpec.Values row))%nat) ->
  (forall k, k ∈ colIDs -> is_Some (Table.colsByID table !! k)) ->
  indexEntries encodeValue e table cs row pkEncVal colIDs des <> Panic.
Proof.
  induction colIDs as [|colID rest IH]; intros des Henc Hsel Hcols;
    cbn [indexEntries]; [discriminate|].
  destruct (lookup_lt_is_Some_2 (RowSpec.Values row) (sel_at cs colID))
    as [cVal HcVal]; [apply Hsel|].
  unfold index. rewrite HcVal. cbn [mbind result_bind].
  destruct (Hcols colID) as [col Hcol]; [left|]. rewrite Hcol.
  pose proof (Henc cVal (Column.colType col) asKey) as Hv.
  destruct (encodeValue cVal (Column.colType col) asKey) as [encVal| |];
    cbn [mbind result_bind]; [|discriminate|contradiction].
  apply IH; [exact Henc | exact Hsel |].
  intros k Hk. apply Hcols. right. exact Hk.
Qed.

Lemma Upsert_rows_no_panic e table cols cs rows : forall n des,
  (forall v ty k, encodeValue v ty k <> Panic) ->
  (forall c, c ∈ cols -> is_Some (Table.colsByName table !! c)) ->
  (forall k, (sel_at cs k < length cols)%nat) ->
  (forall k, k ∈ Table.indexes table ->
             is_Some (Table.colsByID table !! k)) ->
  Upsert_rows encodeValue setRange e table cols cs n rows des <> Panic.
Proof using setRange_perm.
  induction rows as [|row rest IH]; intros n des Henc Hknown Hsel Hix;
    cbn [Upsert_rows]; [discriminate|].
  case_bool_decide as Hlen; [discriminate|].
  assert (length (RowSpec.Values row) = length cols) as Hlen'.
  { destruct (decide (length (RowSpec.Values row) = length cols));
      [assumption | contradiction]. }
  destruct (lookup_lt_is_Some_2 (RowSpec.Values row)
              (sel_at cs (Column.id (Table.pk table)))) as [pkVal HpkVal];
    [rewrite Hlen'; apply Hsel|].
  unfold index at 1. rewrite HpkVal. cbn [mbind result_bind].
  pose proof (Henc pkVal (Column.colType (Table.pk table)) asKey) as Hv.
  destruct (encodeValue pkVal (Column.colType (Table.pk table)) asKey)
    as [pkEncVal| |]; cbn [mbind result_bind]; [|discriminate|contradiction].
  pose proof (Bytes_loop_no_panic table cols (RowSpec.Values row) 0%nat
                (PutUint32 (N.of_nat (length cols))) Henc Hknown) as Hb.
  unfold Bytes.
  destruct (Bytes_loop encodeValue table cols 0 (RowSpec.Values row) _)
    as [bs| |]; cbn [mbind result_bind];
    [|discriminate|exfalso; apply Hb; [lia | reflexivity]].
  match goal with
  | |- context [indexEntries encodeValue e table cs row pkEncVal ?ids ?acc] =>
      pose proof (indexEntries_no_panic e table cs row pkEncVal ids acc Henc) as Hi;
      destruct (indexEntries encodeValue e table cs row pkEncVal ids acc)
        as [des1| |]
  end; cbn [mbind result_bind]; [|discriminate|].
  - apply IH; assumption.
  - exfalso. apply Hi; [|  |reflexivity].
    + intros k. rewrite Hlen'. apply Hsel.
    + intros k Hk. apply Hix. rewrite (setRange_perm _ _) in Hk.
      apply elem_of_elements in Hk. exact Hk.
Qed.

(** The positions of a validated map are positions of the list, and a
    missing id reads as position 0 of a list that is not empty. *)
Lemma Validate_Ok_sel_at cols table cs :
  Validate cols table = Ok cs ->
  (forall c, c ∈ cols -> is_Some (Table.colsByName table !! c))
  /\ forall k, (sel_at cs k < length cols)%nat.
Proof.
  intros Hval.
  destruct (Validate_Ok_inv cols table cs Hval) as (Hpk & _ & _ & Hpos).
  split.
  - intros c Hc. apply list_elem_of_lookup in Hc as [j Hj].
    destruct (Hpos j c Hj) as (col & Hcol & _). eauto.
  - intros k. unfold sel_at.
    unfold Validate in Hval.
    destruct (Validate_loop table cols 0%nat false ∅) as [[b sel]| |] eqn:Hloop;
      try discriminate.
    cbn [mbind result_bind] in Hval. destruct b; [|discriminate].
    cbn [negb] in Hval. inversion Hval; subst.
    destruct (cs !! k) as [j|] eqn:Hk; cbn.
    + destruct (Validate_loop_positions _ _ _ _ _ _ _ Hloop) as (Hp & _).
      destruct (Hp k j Hk) as [Hemp | (c & col & _ & Hc & _)].
      * rewrite lookup_empty in Hemp. discriminate.
      * apply lookup_lt_Some in Hc. lia.
    + destruct cols; [apply not_elem_of_nil in Hpk; contradiction | cbn; lia].
Qed.

Lemma Upsert_no_panic
    (tableRef : TableRef.t) (cols : list string) (rows : list RowSpec.t)
    (e : option Engine) (table : Table.t) :
  (forall v ty k, encodeValue v ty k <> Panic) ->
  referencedTable tableRef e = Ok table ->
  (forall k, k ∈ Table.indexes table ->
             is_Some (Table.colsByID table !! k)) ->
  compile_upsert tableRef cols rows e <> Panic.
Proof using setRange_perm.
  intros Henc Htab Hix. unfold UpsertIntoStmt_CompileUsing.
  rewrite Htab. cbn [mbind result_bind].
  destruct (Validate cols table) as [cs| |] eqn:Hval; cbn [mbind result_bind];
    [|discriminate|].
  - destruct e as [eng|]; [|discriminate Htab].
    destruct (Validate_Ok_sel_at cols table cs Hval) as [Hknown Hsel].
    pose proof (Upsert_rows_no_panic eng table cols cs rows 0%nat [] Henc
                  Hknown Hsel Hix) as Hr.
    destruct (Upsert_rows encodeValue setRange eng table cols cs 0%nat rows [])
      as [des| |]; cbn [mbind result_bind]; [discriminate|discriminate|].
    contradiction.
  - exfalso. unfold Validate in Hval.
    destruct (Validate_loop_result table cols 0%nat false ∅)
      as [[[b sel] Hok] | [Hr | Hr]]; rewrite ?Hok, ?Hr in Hval;
      cbn [mbind result_bind] in Hval; try discriminate.
    destruct (negb b); discriminate.
Qed.

(** An UPSERT on a table whose indexed ids are ids of its columns never
    panics, provided the codec does not: no value is read out of range
    and no column is missing, whatever the rows. *)
Theorem UpsertIntoStmt_CompileUsing_no_panic
    (tableRef : TableRef.t) (cols : list string) (rows : list RowSpec.t)
    (e : option Engine) (table : Table.t) :
  (forall v ty k, encodeValue v ty k <> Panic) ->
  referencedTable tableRef e = Ok table ->
  (forall k, k ∈ Table.indexes table ->
             is_Some (Table.colsByID table !! k)) ->
  compile_upsert tableRef cols rows e <> Panic.
Proof using setRange_perm. exact (Upsert_no_panic tableRef cols rows e table). Qed.

(** *** The entries of an UPSERT *)

Local Abbreviation upsert_rows := (Upsert_rows encodeValue setRange).

(** What [Bytes] builds for a row that has one value per listed
    column. *)
Lemma Bytes_Ok_payload row table cols bs :
  length (RowSpec.Values row) = length cols ->
  Bytes encodeValue row table cols = Ok bs ->
  row_payload encodeValue table cols row bs.
Proof.
  intros Hlen H. unfold Bytes in H.
  apply Bytes_loop_layout in H as (chunks & -> & Hchunks & Hall).
  exists chunks. split; [reflexivity|]. split; [congruence|].
  intros k c Hc.
  destruct (lookup_lt_is_Some_2 (RowSpec.Values row) k) as [val Hval].
  { rewrite Hlen. eapply lookup_lt_Some. exact Hc. }
  destruct (Hall k val Hval) as (c' & col & valb & Hc' & Hcol & Henc & Hchunk).
  cbn [Nat.add] in Hc'. rewrite Hc in Hc'. inversion Hc'; subst c'.
  exists col, val, valb.
  split; [exact Hcol|]. split; [exact Hval|]. split; [exact Henc | exact Hchunk].
Qed.

(** The rows that the loop compiles, from row [n] on: one block of
    entries per row, appended in order. *)
Lemma Upsert_rows_Ok e table cols cs rows : forall n des out,
  upsert_rows e table cols cs n rows des = Ok out ->
  exists blocks,
    out = des ++ concat blocks
    /\ length blocks = length rows
    /\ length (concat blocks)
       = (length rows * (1 + size (Table.indexes table)))%nat
    /\ forall k row, rows !! k = Some row ->
         exists block,
           blocks !! k = Some block
           /\ row_entries encodeValue setRange e table cols (sel_at cs)
                (n + k)%nat row block.
Proof using setRange_perm.
  induction rows as [|row rest IH]; intros n des out H; cbn [Upsert_rows] in H.
  - inversion H; subst. exists []. cbn [concat]. rewrite app_nil_r.
    split; [reflexivity|]. split; [reflexivity|]. split; [reflexivity|].
    intros k row Hk. rewrite lookup_nil in Hk. discriminate.
  - case_bool_decide as Hlen; [discriminate|].
    assert (length (RowSpec.Values row) = length cols) as Hlen'.
    { destruct (decide (length (RowSpec.Values row) = length cols));
        [assumption | contradiction]. }
    destruct (index (RowSpec.Values row) (sel_at cs (Column.id (Table.pk table))))
      as [pkVal| |] eqn:HpkVal; try discriminate.
    cbn [mbind result_bind] in H.
    destruct (encodeValue pkVal (Column.colType (Table.pk table)) asKey)
      as [pkEncVal| |] eqn:Henc; try discriminate.
    cbn [mbind result_bind] in H.
    destruct (Bytes encodeValue row table cols) as [bs| |] eqn:Hbs;
      try discriminate.
    cbn [mbind result_bind] in H.
    destruct (indexEntries encodeValue e table cs row pkEncVal
                (setRange n (Table.indexes table)) _) as [des1| |] eqn:Hix;
      try discriminate.
    cbn [mbind result_bind] in H.
    apply indexEntries_Ok in Hix as (secs & -> & Hsecs).
    apply IH in H as (blocks & -> & Hblen & Hcount & Hblocks).
    assert (length secs = size (Table.indexes table)) as Hsize.
    { rewrite <- (Forall2_length _ _ _ Hsecs).
      apply (setRange_length setRange setRange_perm). }
    exists ((mkKV (mapKey e rowPrefix
                     [encodeID (DbRef.id (Table.db table));
                      encodeID (Table.id table);
                      encodeID (Column.id (Table.pk table)); pkEncVal]) bs
             :: secs) :: blocks).
    split; [cbn [concat]; rewrite <- !app_assoc; reflexivity|].
    split; [cbn [length]; rewrite Hblen; reflexivity|].
    split.
    { cbn [concat length]. rewrite length_app, Hcount. cbn [length].
      rewrite Hsize. lia. }
    intros [|k] row' Hk; cbn [lookup list_lookup] in Hk.
    + inversion Hk; subst row'. eexists. split; [reflexivity|].
      rewrite Nat.add_0_r.
      exists pkVal, pkEncVal, bs, secs.
      apply index_Ok in HpkVal.
      split; [exact Hlen'|]. split; [exact HpkVal|]. split; [exact Henc|].
      split; [exact (Bytes_Ok_payload row table cols bs Hlen' Hbs)|].
      split; [reflexivity|]. split; [|split; [exact Hsize | exact Hsecs]].
      apply (mapKey_last e rowPrefix
               [encodeID (DbRef.id (Table.db table)); encodeID (Table.id table);
                encodeID (Column.id (Table.pk table))] pkEncVal).
    + destruct (Hblocks k row' Hk) as (block & Hb & Hre).
      exists block. split; [exact Hb|].
      replace (n + S k)%nat with (S n + k)%nat by lia. exact Hre.
Qed.

(** The position that a validated map gives to the column of a listed
    name is the position of the name, and the position that it gives to
    the primary key is that of its name when the primary key is filed
    under its name. *)
Lemma Validate_Ok_positions cols table cs :
  Validate cols table = Ok cs ->
  (forall j c, cols !! j = Some c ->
     exists col, Table.colsByName table !! c = Some col
                 /\ sel_at cs (Column.id col) = j)
  /\ (pk_by_name table ->
      cols !! sel_at cs (Column.id (Table.pk table))
      = Some (Column.colName (Table.pk table))).
Proof.
  intros Hval.
  destruct (Validate_Ok_inv cols table cs Hval) as (Hpk & _ & _ & Hpos).
  assert (forall j c, cols !! j = Some c ->
            exists col, Table.colsByName table !! c = Some col
                        /\ sel_at cs (Column.id col) = j) as Hat.
  { intros j c Hj. destruct (Hpos j c Hj) as (col & Hcol & Hcs).
    exists col. split; [exact Hcol|]. unfold sel_at. rewrite Hcs. reflexivity. }
  split; [exact Hat|].
  intros Hpkn. apply list_elem_of_lookup in Hpk as [j Hj].
  destruct (Hat j _ Hj) as (col & Hcol & Hsel).
  unfold pk_by_name in Hpkn. rewrite Hpkn in Hcol.
  inversion Hcol; subst col. rewrite Hsel. exact Hj.
Qed.

(** C2: an UPSERT that compiles returns no catalog entry and, for [n]
    rows on a table with [i] indexed columns, [n * (1 + i)] data entries,
    one block per row in the order of the rows.  The block of a row is
    the entry of the primary key followed by one entry per indexed
    column.  The key of the first ends with the encoded value that the
    row lists for the primary key, on every table that files its primary
    key under its name, and its value is the payload of the row: the
    number of listed columns, then name and encoded value for each of
    them.  Each of the others has an empty value and a key that ends with
    the same encoded value of the primary key. *)
Theorem UpsertIntoStmt_CompileUsing_entries
    (tableRef : TableRef.t) (cols : list string) (rows : list RowSpec.t)
    (e : option Engine) (ces des : list KV) :
  compile_upsert tableRef cols rows e = Ok (ces, des) ->
  exists eng table cs blocks,
    e = Some eng
    /\ referencedTable tableRef e = Ok table
    /\ Validate cols table = Ok cs
    /\ ces = []
    /\ length des = (length rows * (1 + size (Table.indexes table)))%nat
    /\ des = concat blocks
    /\ length blocks = length rows
    /\ (forall n row, rows !! n = Some row ->
          exists block,
            blocks !! n = Some block
            /\ row_entries encodeValue setRange eng table cols (sel_at cs)
                 n row block)
    /\ (forall j c, cols !! j = Some c ->
          exists col, Table.colsByName table !! c = Some col
                      /\ sel_at cs (Column.id col) = j)
    /\ (pk_by_name table ->
        cols !! sel_at cs (Column.id (Table.pk table))
        = Some (Column.colName (Table.pk table))).
Proof using setRange_perm.
  unfold UpsertIntoStmt_CompileUsing. intros H.
  destruct (referencedTable tableRef e) as [table| |] eqn:Htab;
    try discriminate.
  cbn [mbind result_bind] in H.
  destruct (Validate cols table) as [cs| |] eqn:Hval; try discriminate.
  cbn [mbind result_bind] in H.
  destruct e as [eng|]; [|discriminate].
  destruct (upsert_rows eng table cols cs 0%nat rows []) as [out| |] eqn:Hrows;
    try discriminate.
  cbn [mbind result_bind] in H. inversion H; subst; clear H.
  apply Upsert_rows_Ok in Hrows as (blocks & -> & Hblen & Hcount & Hblocks).
  destruct (Validate_Ok_positions cols table cs Hval) as [Hat Hpk].
  exists eng, table, cs, blocks.
  cbn [app].
  split; [reflexivity|]. split; [reflexivity|]. split; [exact Hval|].
  split; [reflexivity|]. split; [exact Hcount|]. split; [reflexivity|].
  split; [exact Hblen|]. split; [|split; [exact Hat | exact Hpk]].
  intros n row Hn. exact (Hblocks n row Hn).
Qed.

(** *** The catalog stays sound *)

Lemma newColumns_sound tref specs : forall byID byName byID' byName',
  (forall n c, byName !! n = Some c ->
     Column.colName c = n /\ byID !! Column.id c = Some c) ->
  (forall k c, byID !! k = Some c -> k <= N.of_nat (size byID)) ->
  newColumns tref specs byID byName = Ok (byID', byName') ->
  forall n c, byName' !! n = Some c ->
    Column.colName c = n /\ byID' !! Column.id c = Some c.
Proof.
  induction specs as [|cs rest IH]; intros byID byName byID' byName' Hinv Hle H;
    cbn [newColumns] in H.
  - inversion H; subst. exact Hinv.
  - destruct (byName !! ColSpec.colName cs) eqn:Hfree; [discriminate|].
    cbn [Column.id Column.colName] in H.
    assert (byID !! (N.of_nat (size byID) + 1) = None) as Hfresh.
    { destruct (byID !! (N.of_nat (size byID) + 1)) as [c|] eqn:Hc;
        [|reflexivity].
      apply Hle in Hc. lia. }
    eapply IH; [| |exact H].
    + intros n c. rewrite lookup_insert. case_decide as Hn.
      * intros Hc. inversion Hc; subst. cbn [Column.colName Column.id].
        split; [reflexivity | apply lookup_insert_eq].
      * intros Hc. destruct (Hinv n c Hc) as [Hname Hid].
        split; [exact Hname|].
        rewrite lookup_insert_ne; [exact Hid|].
        intros Heq. apply Hle in Hid. lia.
    + intros k c. rewrite map_size_insert_None by exact Hfresh.
      rewrite lookup_insert. case_decide as Hk.
      * intros _. lia.
      * intros Hc. apply Hle in Hc. lia.
Qed.

Lemma newColumns_no_panic tref specs : forall byID byName,
  newColumns tref specs byID byName <> Panic.
Proof.
  induction specs as [|cs rest IH]; intros byID byName; cbn [newColumns];
    [discriminate|].
  destruct (byName !! ColSpec.colName cs); [discriminate | apply IH].
Qed.

(** The table that [newTable] builds is sound, and it is added to the
    tables of the database under its name. *)
Lemma newTable_Ok d name specs pk d' tb :
  newTable d name specs pk = Ok (d', tb) ->
  Table_ok tb
  /\ d' = Database.with_tables (<[name := tb]> (Database.tablesByName d)) d.
Proof.
  unfold newTable.
  destruct (Database.tablesByName d !! name); [discriminate|].
  destruct (newColumns _ specs ∅ ∅) as [[byID byName]| |] eqn:Hcols;
    try discriminate.
  cbn [mbind result_bind].
  destruct (byName !! pk) as [pkCol|] eqn:Hpk; [|discriminate].
  intros H. inversion H; subst; clear H.
  split; [|reflexivity].
  pose proof (newColumns_sound _ _ _ _ _ _
                ltac:(intros n c; rewrite lookup_empty; discriminate)
                ltac:(intros k c; rewrite lookup_empty; discriminate)
                Hcols) as Hinv.
  split; [split|].
  - unfold pk_by_name. cbn [Table.colsByName Table.pk].
    destruct (Hinv pk pkCol Hpk) as [-> _]. exact Hpk.
  - cbn [Table.colsByName Table.colsByID]. intros n c Hc. exact (Hinv n c Hc).
  - cbn [Table.indexes]. intros k Hk.
    apply not_elem_of_empty in Hk. contradiction.
Qed.

Lemma newTable_no_panic d name specs pk : newTable d name specs pk <> Panic.
Proof.
  unfold newTable.
  destruct (Database.tablesByName d !! name); [discriminate|].
  pose proof (newColumns_no_panic
                (TableRefTo.mk (DbRef.mk (Database.id d) (Database.name d))
                   (N.of_nat (size (Database.tablesByName d)) + 1) name)
                specs ∅ ∅) as Hn.
  destruct (newColumns _ specs ∅ ∅) as [[byID byName]| |];
    cbn [mbind result_bind]; [|discriminate|contradiction].
  destruct (byName !! pk); discriminate.
Qed.

Lemma Engine_ok_referencedTable eng stmt :
  Engine_ok eng ->
  referencedTable stmt (Some eng) <> Panic
  /\ forall table, referencedTable stmt (Some eng) = Ok table -> Table_ok table.
Proof.
  intros [Himp Htabs]. split.
  - destruct (decide (implicitDatabase eng = "")) as [He|He].
    + rewrite referencedTable_no_database by exact He. discriminate.
    + rewrite referencedTable_implicit by exact He.
      destruct Himp as [Himp | [d Hd]]; [contradiction|].
      rewrite Hd. destruct (Database.tablesByName d !! _); discriminate.
  - intros table Htab.
    apply referencedTable_Ok_inv in Htab as (eng' & d & Heq & _ & Hd & Htb).
    inversion Heq; subst. exact (Htabs _ _ _ _ Hd Htb).
Qed.

Lemma Engine_ok_put_table eng d tn tb :
  Engine_ok eng ->
  Catalog.dbsByName (catalog eng) !! implicitDatabase eng = Some d ->
  Table_ok tb ->
  Engine_ok
    (set_catalog
       (Catalog.mk
          (<[implicitDatabase eng :=
               Database.with_tables (<[tn := tb]> (Database.tablesByName d)) d]>
             (Catalog.dbsByName (catalog eng)))) eng).
Proof.
  intros [Himp Htabs] Hd Htb. split.
  - right. cbn [set_catalog implicitDatabase catalog Catalog.dbsByName].
    rewrite lookup_insert_eq. eauto.
  - cbn [set_catalog catalog Catalog.dbsByName].
    intros dn d0 tn0 tb0. rewrite lookup_insert. case_decide as Hdn.
    + intros Hd0. inversion Hd0; subst d0.
      cbn [Database.with_tables Database.tablesByName].
      rewrite lookup_insert. case_decide as Htn.
      * intros Heq. inversion Heq; subst. exact Htb.
      * intros Hold. exact (Htabs _ _ _ _ Hd Hold).
    + intros Hd0. exact (Htabs _ _ _ _ Hd0).
Qed.

Lemma Table_ok_add_index tb c col :
  Table_ok tb ->
  Table.colsByName tb !! col = Some c ->
  Table_ok (Table.with_indexes ({[Column.id c]} ∪ Table.indexes tb) tb).
Proof.
  intros [[Hpk Hcols] Hix] Hc. split; [split|].
  - exact Hpk.
  - exact Hcols.
  - cbn [Table.with_indexes Table.indexes Table.colsByID]. intros k Hk.
    apply elem_of_union in Hk as [Hk | Hk].
    + apply elem_of_singleton in Hk. subst k.
      destruct (Hcols col c Hc) as [_ Hid]. eauto.
    + apply Hix. exact Hk.
Qed.

(** What one statement other than a transaction does to a sound
    engine. *)
Lemma CompileUsing_single_sound stmt eng e' r :
  (forall stmts, stmt <> TxStmt stmts) ->
  Engine_ok eng ->
  compile stmt (Some eng) = (e', r) ->
  (exists eng', e' = Some eng' /\ Engine_ok eng')
  /\ ((forall v ty k, encodeValue v ty k <> Panic) ->
      selectors_given stmt -> r <> Panic).
Proof using setRange_perm.
  intros Hntx Hok H.
  destruct stmt as [stmts|db|db|since upTo|table colsSpec pk|table col
                   |table colSpec|tableRef cols rows|s];
    cbn [CompileUsing] in H.
  - exfalso. exact (Hntx stmts eq_refl).
  - unfold CreateDatabaseStmt_CompileUsing, Catalog.newDatabase in H.
    destruct (Catalog.dbsByName (catalog eng) !! db) eqn:Hdb.
    + injection H as <- <-. split; [eauto | discriminate].
    + injection H as <- <-. split; [|discriminate].
      eexists. split; [reflexivity|].
      destruct Hok as [Himp Htabs]. split.
      * cbn [set_catalog implicitDatabase catalog Catalog.dbsByName].
        destruct Himp as [Himp | [d Hd]]; [auto|]. right.
        rewrite lookup_insert. case_decide; eauto.
      * cbn [set_catalog catalog Catalog.dbsByName].
        intros dn d tn tb. rewrite lookup_insert. case_decide.
        -- intros Hd. inversion Hd; subst d.
           cbn [Database.tablesByName]. rewrite lookup_empty. discriminate.
        -- intros Hd. exact (Htabs _ _ _ _ Hd).
  - unfold UseDatabaseStmt_CompileUsing, Catalog.ExistDatabase in H.
    case_bool_decide as Hex; cbn [negb] in H; injection H as <- <-.
    + split; [|discriminate]. eexists. split; [reflexivity|].
      destruct Hok as [_ Htabs]. split; [right; exact Hex | exact Htabs].
    + split; [eauto | discriminate].
  - unfold UseSnapshotStmt_CompileUsing in H. injection H as <- <-.
    split; [eauto | discriminate].
  - unfold CreateTableStmt_CompileUsing in H.
    case_bool_decide as Himp.
    { injection H as <- <-. split; [eauto | discriminate]. }
    pose proof Hok as Hok'.
    destruct Hok as [[Hno | [d Hd]] Htabs]; [contradiction|].
    rewrite Hd in H.
    pose proof (newTable_no_panic d table colsSpec pk) as Hnp.
    destruct (newTable d table colsSpec pk) as [[d' tb]|err|] eqn:Hnew;
      [|injection H as <- <-; split; [eauto | discriminate]|contradiction].
    injection H as <- <-. split; [|discriminate].
    apply newTable_Ok in Hnew as [Htb ->].
    eexists. split; [reflexivity|].
    apply Engine_ok_put_table;
      [split; [right; eauto | exact Htabs] | exact Hd | exact Htb].
  - unfold CreateIndexStmt_CompileUsing in H.
    case_bool_decide as Himp.
    { injection H as <- <-. split; [eauto | discriminate]. }
    pose proof Hok as Hok'.
    destruct Hok as [[Hno | [d Hd]] Htabs]; [contradiction|].
    rewrite Hd in H.
    destruct (Database.tablesByName d !! table) as [tb|] eqn:Htb;
      [|injection H as <- <-; split; [eauto | discriminate]].
    case_bool_decide as Hpk;
      [injection H as <- <-; split; [eauto | discriminate]|].
    destruct (Table.colsByName tb !! col) as [c|] eqn:Hc;
      [|injection H as <- <-; split; [eauto | discriminate]].
    case_bool_decide as Hin;
      [injection H as <- <-; split; [eauto | discriminate]|].
    injection H as <- <-. split; [|discriminate].
    eexists. split; [reflexivity|].
    apply Engine_ok_put_table; [exact Hok' | exact Hd |].
    eapply Table_ok_add_index; [exact (Htabs _ _ _ _ Hd Htb) | exact Hc].
  - unfold AddColumnStmt_CompileUsing in H. injection H as <- <-.
    split; [eauto | discriminate].
  - injection H as <- <-. split; [eauto|]. intros Henc _.
    destruct (Engine_ok_referencedTable eng tableRef Hok) as [Hnp Htok].
    destruct (referencedTable tableRef (Some eng)) as [tb| |] eqn:Htab.
    + apply (Upsert_no_panic tableRef cols rows
               (Some eng) tb Henc Htab).
      exact (proj2 (Htok tb eq_refl)).
    + unfold UpsertIntoStmt_CompileUsing. rewrite Htab. discriminate.
    + contradiction.
  - injection H as <- <-. split; [eauto|]. intros _ Hsel.
    cbn [selectors_given] in Hsel.
    unfold SelectStmt_CompileUsing.
    case_bool_decide; [discriminate|].
    case_bool_decide as Hlen; [|discriminate].
    destruct (SelectStmt_ds s) as [tr|s']; [|discriminate].
    destruct (Engine_ok_referencedTable eng tr Hok) as [Hnp _].
    destruct (referencedTable tr (Some eng)) as [tb| |];
      cbn [mbind result_bind]; [|discriminate|contradiction].
    destruct (SelectStmt_orderBy s) as [|oc rest]; [cbn in Hlen; lia|].
    change (index (oc :: rest) 0%nat) with (@Ok OrdCol.t oc).
    cbn [mbind result_bind].
    inversion Hsel as [|? ? Hoc _]; subst.
    destruct (OrdCol.sel oc) as [sel|]; [|contradiction].
    repeat case_match; discriminate.
Qed.

Lemma selectors_given_TxStmt stmts :
  selectors_given (TxStmt stmts) -> Forall selectors_given stmts.
Proof.
  cbn [selectors_given]. induction stmts as [|s rest IH]; intros H;
    [constructor|].
  destruct H as [Hs Hrest]. constructor; auto.
Qed.

Lemma Tx_loop_sound stmts :
  Forall (fun s => forall eng e' r,
            Engine_ok eng ->
            compile s (Some eng) = (e', r) ->
            (exists eng', e' = Some eng' /\ Engine_ok eng')
            /\ ((forall v ty k, encodeValue v ty k <> Panic) ->
                selectors_given s -> r <> Panic)) stmts ->
  forall eng ces des e' r,
    Engine_ok eng ->
    tx_loop stmts (Some eng) ces des = (e', r) ->
    (exists eng', e' = Some eng' /\ Engine_ok eng')
    /\ ((forall v ty k, encodeValue v ty k <> Panic) ->
        Forall selectors_given stmts -> r <> Panic).
Proof.
  induction 1 as [|s rest Hs _ IH]; intros eng ces des e' r Hok H;
    cbn [Tx_loop] in H.
  - injection H as <- <-. split; [eauto | discriminate].
  - destruct (compile s (Some eng)) as [e1 r1] eqn:Hc.
    destruct (Hs eng e1 r1 Hok Hc) as [(eng1 & -> & Hok1) Hnp].
    destruct r1 as [[cs ds]|err|].
    + destruct (IH eng1 _ _ _ _ Hok1 H) as [Hex Hnp'].
      split; [exact Hex|]. intros Henc Hall.
      inversion Hall; subst. auto.
    + injection H as <- <-. split; [eauto | discriminate].
    + injection H as <- <-. split; [eauto|]. intros Henc Hall.
      inversion Hall; subst. auto.
Qed.

Lemma CompileUsing_sound stmt : forall eng e' r,
  Engine_ok eng ->
  compile stmt (Some eng) = (e', r) ->
  (exists eng', e' = Some eng' /\ Engine_ok eng')
  /\ ((forall v ty k, encodeValue v ty k <> Panic) ->
      selectors_given stmt -> r <> Panic).
Proof using setRange_perm.
  induction stmt as [stmts IH | stmt Hntx] using SQLStmt_nested_ind;
    intros eng e' r Hok H.
  - rewrite (CompileUsing_TxStmt encodeValue mapRange setRange) in H.
    destruct (Tx_loop_sound stmts IH _ _ _ _ _ Hok H) as [Hex Hnp].
    split; [exact Hex|]. intros Henc Hsel. apply Hnp; [exact Henc|].
    apply selectors_given_TxStmt. exact Hsel.
  - exact (CompileUsing_single_sound stmt eng e' r Hntx Hok H).
Qed.

(** Every statement, compiled or failed, leaves a sound engine sound:
    the implicit database is in the catalog, every table is well formed
    and its indexed ids are ids of its columns. *)
Theorem CompileUsing_keeps_Engine_ok (stmt : SQLStmt) (eng : Engine) :
  Engine_ok eng ->
  exists eng', fst (compile stmt (Some eng)) = Some eng' /\ Engine_ok eng'.
Proof using setRange_perm.
  intros Hok. destruct (compile stmt (Some eng)) as [e' r] eqn:H.
  exact (proj1 (CompileUsing_sound stmt eng e' r Hok H)).
Qed.

(** On a sound engine no statement panics, provided the codec does not
    and every ordering column of a SELECT has its selector: no database,
    table or column is dereferenced that is not there. *)
Theorem CompileUsing_no_panic (stmt : SQLStmt) (eng : Engine) :
  Engine_ok eng ->
  (forall v ty k, encodeValue v ty k <> Panic) ->
  selectors_given stmt ->
  snd (compile stmt (Some eng)) <> Panic.
Proof using setRange_perm.
  intros Hok Henc Hsel. destruct (compile stmt (Some eng)) as [e' r] eqn:H.
  exact (proj2 (CompileUsing_sound stmt eng e' r Hok H) Henc Hsel).
Qed.

End Coverage.

(** ** The entries of a transaction *)

(** When a transaction compiles, its catalog entries are those of its
    statements, in order, each statement compiled on the engine that the
    statements before it have left; it returns no data entry, whatever
    its statements return. *)
Theorem TxStmt_CompileUsing_concatenates
    (encodeValue : Value.t -> SQLValueType -> bool -> result (list byte))
    (mapRange : gmap N Column.t -> list (N * Column.t))
    (setRange : nat -> gset N -> list N)
    (stmts : list SQLStmt) (e e' : option Engine) (ces des : list KV) :
  CompileUsing encodeValue mapRange setRange (TxStmt stmts) e
  = (e', Ok (ces, des)) ->
  des = []
  /\ ces = concat (map fst (Tx_outputs encodeValue mapRange setRange stmts e))
  /\ length (Tx_outputs encodeValue mapRange setRange stmts e) = length stmts.
Proof.
  exact (TxStmt_CompileUsing_Ok encodeValue mapRange setRange stmts e e' ces des).
Qed.

(** ** The further properties on the running example *)

Lemma encodeValue_model_no_panic v ty k : encodeValue_model v ty k <> Panic.
Proof.
  destruct v; cbn [encodeValue_model]; repeat case_bool_decide; discriminate.
Qed.

Lemma Engine_ok_eng0 : Engine_ok eng0.
Proof.
  split; [left; reflexivity|].
  intros dn d tn tb Hd. cbn in Hd. rewrite lookup_empty in Hd. discriminate.
Qed.

(** [UPSERT INTO t(id, name) VALUES (1, 'a'), (2, 'b')] on the table
    with an index on [name], which files its primary key under its
    name. *)
Lemma UpsertIntoStmt_CompileUsing_entries_witness :
  pk_by_name (table_named eng_ix "t")
  /\ exists ces des,
       UpsertIntoStmt_CompileUsing encodeValue_model setRange_model
         t_ref ["id"; "name"] rows_ab engine_ix = Ok (ces, des)
       /\ exists eng table cs blocks,
            engine_ix = Some eng
            /\ referencedTable t_ref engine_ix = Ok table
            /\ Validate ["id"; "name"] table = Ok cs
            /\ ces = []
            /\ length des
               = (length rows_ab * (1 + size (Table.indexes table)))%nat
            /\ des = concat blocks
            /\ length blocks = length rows_ab
            /\ (forall n row, rows_ab !! n = Some row ->
                  exists block,
                    blocks !! n = Some block
                    /\ row_entries encodeValue_model setRange_model eng table
                         ["id"; "name"] (sel_at cs) n row block)
            /\ (forall j c, ["id"; "name"] !! j = Some c ->
                  exists col, Table.colsByName table !! c = Some col
                              /\ sel_at cs (Column.id col) = j)
            /\ (pk_by_name table ->
                ["id"; "name"] !! sel_at cs (Column.id (Table.pk table))
                = Some (Column.colName (Table.pk table))).
Proof.
  split; [vm_compute; reflexivity|].
  eexists _, _. split.
  - vm_compute. reflexivity.
  - apply (UpsertIntoStmt_CompileUsing_entries encodeValue_model
             setRange_model setRange_model_perm).
    vm_compute. reflexivity.
Defined.

Lemma ColSelector_jointColumnTo_selects_witness :
  ColSelector_jointColumnTo sel_id col_id = (Some sel_id, None)
  /\ ColSelector_jointColumnTo sel_a col_id
     = (None, Some ErrJointColumnNotFound).
Proof.
  split.
  - apply (proj1 (ColSelector_jointColumnTo_selects sel_id col_id)).
    unfold selects. apply (bool_decide_unpack _). vm_compute. exact I.
  - apply (proj2 (ColSelector_jointColumnTo_selects sel_a col_id)).
    unfold selects. apply (bool_decide_unpack _). vm_compute. exact I.
Defined.

Lemma CmpBoolExp_jointColumnTo_cases_witness :
  jointColumnTo id_eq_a col_id = (Some sel_a, None)
  /\ jointColumnTo
       (CmpBoolExp CmpOperator.EQ (ColSelectorExp sel_a) (ColSelectorExp sel_b))
       col_id
     = (Some sel_a, None)
  /\ jointColumnTo
       (CmpBoolExp CmpOperator.EQ (ColSelectorExp sel_id) (ColSelectorExp sel_id))
       col_id
     = (None, Some ErrInvalidJointColumn)
  /\ jointColumnTo
       (CmpBoolExp CmpOperator.NE (ColSelectorExp sel_id) (ColSelectorExp sel_a))
       col_id
     = (None, Some ErrJointColumnNotFound).
Proof.
  assert (selects (ColSelectorPtr.deref sel_id) col_id) as Hid
    by (unfold selects; apply (bool_decide_unpack _); vm_compute; exact I).
  assert (~ selects (ColSelectorPtr.deref sel_a) col_id) as Ha
    by (unfold selects; apply (bool_decide_unpack _); vm_compute; exact I).
  split; [|split; [|split]].
  - exact (proj1 (proj2 (proj2 (proj2 (CmpBoolExp_jointColumnTo_cases
             CmpOperator.EQ (ColSelectorExp sel_id) (ColSelectorExp sel_a)
             col_id)) sel_id sel_a eq_refl eq_refl eq_refl)) Hid Ha).
  - exact (proj2 (proj2 (proj2 (proj2 (CmpBoolExp_jointColumnTo_cases
             CmpOperator.EQ (ColSelectorExp sel_a) (ColSelectorExp sel_b)
             col_id)) sel_a sel_b eq_refl eq_refl eq_refl)) Ha).
  - exact (proj1 (proj2 (proj2 (CmpBoolExp_jointColumnTo_cases
             CmpOperator.EQ (ColSelectorExp sel_id) (ColSelectorExp sel_id)
             col_id)) sel_id sel_id eq_refl eq_refl eq_refl) Hid Hid).
  - apply (proj1 (CmpBoolExp_jointColumnTo_cases
             CmpOperator.NE (ColSelectorExp sel_id) (ColSelectorExp sel_a)
             col_id)).
    discriminate.
Defined.

Lemma UseDatabaseStmt_CompileUsing_selects_witness :
  UseDatabaseStmt_CompileUsing "db2" (Some eng_created)
  = (Some eng_created, Err ErrDatabaseDoesNotExist)
  /\ exists eng',
       UseDatabaseStmt_CompileUsing "db1" (Some eng_created)
       = (Some eng', Ok ([], []))
       /\ implicitDatabase eng' = "db1"
       /\ referencedTable t_ref (Some eng') = Err ErrTableDoesNotExist.
Proof.
  split.
  - apply (proj1 (UseDatabaseStmt_CompileUsing_selects "db2" eng_created)).
    vm_compute. reflexivity.
  - assert (exists d, Catalog.dbsByName (catalog eng_created) !! "db1" = Some d
                      /\ Database.tablesByName d !! "t" = None) as (d & Hd & Ht)
      by (eexists; split; vm_compute; reflexivity).
    destruct (proj2 (UseDatabaseStmt_CompileUsing_selects "db1" eng_created)
                d Hd ltac:(discriminate))
      as (eng' & Hret & _ & _ & Himp & Href).
    exists eng'. split; [exact Hret|]. split; [exact Himp|].
    rewrite Href. cbn [TableRef.table t_ref]. rewrite Ht. reflexivity.
Defined.

Lemma CreateIndexStmt_CompileUsing_twice_witness :
  CreateIndexStmt_CompileUsing "t" "name" engine_ix
  = (engine_ix, Err ErrIndexAlreadyExists).
Proof.
  eapply (CreateIndexStmt_CompileUsing_twice "t" "name" eng_t engine_ix).
  vm_compute. reflexivity.
Defined.

Lemma CreateIndexStmt_then_order_by_witness :
  SelectStmt_CompileUsing
    (select_from (DSTableRef t_ref) [order_by "name"]) engine_ix
  = Ok ([], []).
Proof.
  eapply (CreateIndexStmt_then_order_by "t" "name" eng_t engine_ix _
            (select_from (DSTableRef t_ref) [order_by "name"]) t_ref
            (order_by "name") (sel_of "name"));
    [vm_compute; reflexivity | reflexivity ..].
Defined.

Lemma Validate_Ok_map_witness :
  exists cs,
    Validate ["id"; "name"] (table_named eng_ix "t") = Ok cs
    /\ "id" ∈ ["id"; "name"]
    /\ NoDup ["id"; "name"]
    /\ size cs = 2%nat
    /\ cs !! 1 = Some 0%nat /\ cs !! 2 = Some 1%nat.
Proof.
  assert (exists cs, Validate ["id"; "name"] (table_named eng_ix "t") = Ok cs)
    as [cs Hval] by (eexists; vm_compute; reflexivity).
  destruct (Validate_Ok_map ["id"; "name"] (table_named eng_ix "t") cs Hval)
    as (Hpk & Hnd & Hsize & Hpos).
  exists cs. split; [exact Hval|].
  split; [exact Hpk|]. split; [exact Hnd|]. split; [exact Hsize|].
  split.
  - destruct (Hpos 0%nat "id" eq_refl) as (col & Hcol & Hcs).
    vm_compute in Hcol. inversion Hcol; subst. exact Hcs.
  - destruct (Hpos 1%nat "name" eq_refl) as (col & Hcol & Hcs).
    vm_compute in Hcol. inversion Hcol; subst. exact Hcs.
Defined.

Lemma Validate_pk_position_witness :
  exists cs j,
    Validate ["name"; "id"] (table_named eng_ix "t") = Ok cs
    /\ cs !! Column.id (Table.pk (table_named eng_ix "t")) = Some j
    /\ ["name"; "id"] !! j
       = Some (Column.colName (Table.pk (table_named eng_ix "t")))
    /\ sel_at cs (Column.id (Table.pk (table_named eng_ix "t"))) = j.
Proof.
  assert (exists cs, Validate ["name"; "id"] (table_named eng_ix "t") = Ok cs)
    as [cs Hval] by (eexists; vm_compute; reflexivity).
  assert (Table_wf (table_named eng_ix "t")) as Hwf
    by (apply (bool_decide_unpack _); vm_compute; exact I).
  destruct (Validate_pk_position (table_named eng_ix "t") ["name"; "id"] cs
              Hwf Hval) as (j & Hj).
  exists cs, j. split; [exact Hval | exact Hj].
Defined.

Lemma Bytes_layout_witness :
  exists bs chunks,
    Bytes encodeValue_model (RowSpec.mk [Value.Number 1; Value.String "a"])
      (table_named eng_ix "t") ["id"; "name"] = Ok bs
    /\ bs = PutUint32 2 ++ concat chunks
    /\ length chunks = 2%nat.
Proof.
  assert (exists bs,
            Bytes encodeValue_model
              (RowSpec.mk [Value.Number 1; Value.String "a"])
              (table_named eng_ix "t") ["id"; "name"] = Ok bs) as [bs Hbs]
    by (eexists; vm_compute; reflexivity).
  destruct (Bytes_layout encodeValue_model _ _ _ bs Hbs)
    as (_ & chunks & Heq & Hlen & _).
  exists bs, chunks. split; [exact Hbs|]. split; [exact Heq | exact Hlen].
Defined.

Lemma TableRef_Resolve_illegal_witness :
  resolve_table_model t_ref None (Some tt) None = Err ErrIllegalArguments
  /\ resolve_table_model t_ref (Some eng_ix) None None
     = Err ErrIllegalArguments
  /\ resolve_table_model t_ref (Some eng_ix) (Some tt)
       (Some (OrdCol.mk None GreaterOrEqualTo [] false))
     = Err ErrIllegalArguments.
Proof.
  unfold resolve_table_model.
  split; [|split]; apply TableRef_Resolve_illegal.
  - left. reflexivity.
  - right. left. reflexivity.
  - right. right. eexists. split; reflexivity.
Defined.

Lemma TableRef_Resolve_column_errors_witness :
  resolve_table_model t_ref (Some eng_ix) (Some tt)
    (Some (OrdCol.mk (Some (ColSelector.mk "db2" "" "name" ""))
             GreaterOrEqualTo [] false))
  = Err ErrInvalidColumn
  /\ resolve_table_model t_ref (Some eng_ix) (Some tt)
       (Some (order_by "price"))
     = Err ErrColumnDoesNotExist
  /\ resolve_table_model t_ref (Some eng_t) (Some tt) (Some (order_by "name"))
     = Err ErrColumnNotIndexed.
Proof.
  unfold resolve_table_model.
  assert (referencedTable t_ref (Some eng_ix) = Ok (table_named eng_ix "t"))
    as Hix by (vm_compute; reflexivity).
  assert (referencedTable t_ref (Some eng_t) = Ok (table_named eng_t "t"))
    as Ht by (vm_compute; reflexivity).
  split; [|split].
  - apply (proj1 (TableRef_Resolve_column_errors Snapshot_model RowReader_model
                    maxKeyVal_model newRawRowReader_model t_ref eng_ix tt
                    (OrdCol.mk (Some (ColSelector.mk "db2" "" "name" ""))
                       GreaterOrEqualTo [] false)
                    (ColSelector.mk "db2" "" "name" "") _ Hix eq_refl)).
    intros [H|H]; vm_compute in H; discriminate.
  - apply (proj1 (proj2 (proj2 (TableRef_Resolve_column_errors Snapshot_model
                    RowReader_model maxKeyVal_model newRawRowReader_model
                    t_ref eng_ix tt (order_by "price") (sel_of "price") _ Hix
                    eq_refl)))).
    + left. reflexivity.
    + left. reflexivity.
    + vm_compute. reflexivity.
  - eapply (proj2 (proj2 (proj2 (TableRef_Resolve_column_errors Snapshot_model
                    RowReader_model maxKeyVal_model newRawRowReader_model
                    t_ref eng_t tt (order_by "name") (sel_of "name") _ Ht
                    eq_refl)))).
    + left. reflexivity.
    + left. reflexivity.
    + vm_compute. reflexivity.
    + vm_compute. discriminate.
    + intros Hin. apply (bool_decide_pack _) in Hin. vm_compute in Hin.
      exact Hin.
Defined.

Lemma TableRef_Resolve_primary_key_witness :
  resolve_table_model t_ref (Some eng_ix) (Some tt) None
  = Ok ("id", GreaterOrEqualTo, [])
  /\ resolve_table_model t_ref (Some eng_ix) (Some tt)
       (Some (OrdCol.mk (Some (sel_of "id")) LowerOrEqualTo [] false))
     = Ok ("id", LowerOrEqualTo, maxKeyVal_model IntegerType).
Proof.
  unfold resolve_table_model.
  assert (referencedTable t_ref (Some eng_ix) = Ok (table_named eng_ix "t"))
    as Hix by (vm_compute; reflexivity).
  destruct (TableRef_Resolve_primary_key Snapshot_model RowReader_model
              maxKeyVal_model newRawRowReader_model t_ref eng_ix tt _ Hix)
    as [Hnone Hpk].
  split.
  - refine (eq_trans Hnone _). vm_compute. reflexivity.
  - assert (pk_by_name (table_named eng_ix "t")) as Hwf
      by (vm_compute; reflexivity).
    specialize (Hpk Hwf LowerOrEqualTo [] false).
    assert (Column.colName (Table.pk (table_named eng_ix "t")) = "id") as Hn
      by (vm_compute; reflexivity).
    rewrite Hn in Hpk. refine (eq_trans Hpk _). vm_compute. reflexivity.
Defined.

Lemma SelectStmt_Resolve_nil_witness :
  is_Ok (resolve_select_model
           (select_from (DSSelectStmt (select_from (DSTableRef t_ref) [])) [])
           None (Some tt) None) = false
  /\ is_Ok (resolve_select_model (select_from (DSTableRef t_ref) [])
              (Some eng_ix) None None) = false.
Proof.
  unfold resolve_select_model.
  split; apply SelectStmt_Resolve_nil; [left | right]; reflexivity.
Defined.

Lemma SelectStmt_Resolve_descending_witness :
  resolve_select_model
    (select_from (DSTableRef t_ref) [order_by_desc "name"])
    (Some eng_ix) (Some tt) None
  = Ok ("name", LowerThan, maxKeyVal_model StringType).
Proof.
  unfold resolve_select_model.
  refine (eq_trans (SelectStmt_Resolve_descending Snapshot_model RowReader_model
             maxKeyVal_model newRawRowReader_model newJointRowReader_model
             (select_from (DSTableRef t_ref) [order_by_desc "name"]) t_ref
             (order_by_desc "name") (sel_of "name") eng_ix tt
             (table_named eng_ix "t")
             (Column.mk (TableRefTo.mk (DbRef.mk 1 "db1") 1 "t") 2
                "name" StringType)
             eq_refl eq_refl eq_refl eq_refl eq_refl (or_introl eq_refl)
             _ _ _ _ _) _).
  - vm_compute. reflexivity.
  - left. reflexivity.
  - left. reflexivity.
  - vm_compute. reflexivity.
  - apply (bool_decide_unpack _). vm_compute. exact I.
  - reflexivity.
Defined.

Lemma CompileUsing_not_DDL_witness :
  catalog <$> fst (compile_model (TxStmt [UseDatabaseStmt "db1"; upsert_ab])
                     engine_ix)
  = catalog <$> engine_ix
  /\ forall ces des,
       snd (compile_model (TxStmt [UseDatabaseStmt "db1"; upsert_ab])
              engine_ix) = Ok (ces, des) ->
       ces = [].
Proof.
  apply (CompileUsing_not_DDL encodeValue_model mapRange_model setRange_model).
  reflexivity.
Defined.

Lemma CompileUsing_failure_keeps_engine_witness :
  snd (compile_model (CreateIndexStmt "t" "id") engine_t)
  = Err ErrIndexAlreadyExists
  /\ fst (compile_model (CreateIndexStmt "t" "id") engine_t) = engine_t.
Proof.
  split; [vm_compute; reflexivity|].
  apply (CompileUsing_failure_keeps_engine encodeValue_model mapRange_model
           setRange_model).
  - intros stmts. discriminate.
  - vm_compute. reflexivity.
Defined.

Lemma TxStmt_failure_keeps_effects_witness :
  exists e2,
    compile_model
      (TxStmt ([UseDatabaseStmt "db1"] ++ UseDatabaseStmt "db2" :: [create_t]))
      (Some eng_created)
    = (e2, Err ErrDatabaseDoesNotExist)
    /\ implicitDatabase <$> e2 = Some "db1"
    /\ implicitDatabase eng_created = "".
Proof.
  assert (exists e1 out e2,
            compile_model (TxStmt [UseDatabaseStmt "db1"]) (Some eng_created)
            = (e1, Ok out)
            /\ compile_model (UseDatabaseStmt "db2") e1
               = (e2, Err ErrDatabaseDoesNotExist)
            /\ implicitDatabase <$> e2 = Some "db1")
    as (e1 & out & e2 & Hpre & Hs & Himp)
    by (eexists _, _, _; split; [|split]; vm_compute; reflexivity).
  exists e2. split; [|split; [exact Himp | vm_compute; reflexivity]].
  exact (TxStmt_failure_keeps_effects encodeValue_model mapRange_model
           setRange_model [UseDatabaseStmt "db1"] [create_t]
           (UseDatabaseStmt "db2") (Some eng_created) e1 e2 out
           ErrDatabaseDoesNotExist Hpre Hs).
Defined.

Lemma UpsertIntoStmt_CompileUsing_no_panic_witness :
  UpsertIntoStmt_CompileUsing encodeValue_model setRange_model t_ref
    ["id"; "name"] rows_short engine_ix
  <> Panic.
Proof.
  apply (UpsertIntoStmt_CompileUsing_no_panic encodeValue_model setRange_model
           setRange_model_perm t_ref ["id"; "name"] rows_short engine_ix
           (table_named eng_ix "t")).
  - exact encodeValue_model_no_panic.
  - vm_compute. reflexivity.
  - intros k Hk.
    assert (Table.indexes (table_named eng_ix "t") = {[2]}) as Hix
      by (vm_compute; reflexivity).
    rewrite Hix in Hk. apply elem_of_singleton in Hk. subst k.
    vm_compute. eauto.
Defined.

Lemma CompileUsing_keeps_Engine_ok_witness :
  exists eng',
    fst (compile_model (TxStmt (setup_stmts ++ [CreateIndexStmt "t" "name"]))
           (Some eng0)) = Some eng'
    /\ Engine_ok eng'.
Proof.
  exact (CompileUsing_keeps_Engine_ok encodeValue_model mapRange_model
           setRange_model setRange_model_perm
           (TxStmt (setup_stmts ++ [CreateIndexStmt "t" "name"])) eng0
           Engine_ok_eng0).
Defined.

Lemma CompileUsing_no_panic_witness :
  snd (compile_model
         (TxStmt (setup_stmts
                  ++ [CreateIndexStmt "t" "name"; upsert_ab;
                      SelectSQLStmt
                        (select_from (DSTableRef t_ref) [order_by "name"])]))
         (Some eng0))
  <> Panic.
Proof.
  apply (CompileUsing_no_panic encodeValue_model mapRange_model
           setRange_model setRange_model_perm _ eng0 Engine_ok_eng0
           encodeValue_model_no_panic).
  cbn. repeat split. repeat constructor. discriminate.
Defined.

Lemma TxStmt_CompileUsing_concatenates_witness :
  exists e' ces des,
    compile_model (TxStmt setup_stmts) engine0 = (e', Ok (ces, des))
    /\ des = []
    /\ ces = concat (map fst
                       (Tx_outputs encodeValue_model mapRange_model
                          setRange_model setup_stmts engine0))
    /\ length ces = 4%nat.
Proof.
  assert (exists e' ces des,
            compile_model (TxStmt setup_stmts) engine0 = (e', Ok (ces, des))
            /\ length ces = 4%nat) as (e' & ces & des & H & Hlen)
    by (eexists _, _, _; split; vm_compute; reflexivity).
  destruct (TxStmt_CompileUsing_concatenates encodeValue_model mapRange_model
              setRange_model setup_stmts engine0 e' ces des H)
    as (Hdes & Hces & _).
  exists e', ces, des. auto.
Defined.

Lemma ColSelector_resolve_qualified_witness :
  ColSelector_resolve (ColSelector.mk "" "t" "name" "") "db1"
  = ColSelector_resolve (ColSelector.mk "db1" "t" "name" "") "db2".
Proof.
  apply (ColSelector_resolve_qualified (ColSelector.mk "" "t" "name" "")
           "db1" "db2"); [reflexivity | reflexivity | discriminate].
Defined.
